(** * Ovis: image tiling, placeholder construction and multimodal merging

    A shallow embedding of the deterministic data shaping code of
    [ovis/vllm/processing_ovis.py] (class [OvisProcessor]) and of
    [ovis/model/modeling_ovis.py] (method [Ovis.merge_multimodal]).

    Conventions of the embedding:
    - Python integers are [Z]; [//] is [Z.div] (both floor).
    - A Python float is a binary64 number, a rational here; the operations
      on floats round their exact result to the nearest binary64 number
      ([Binary64]).  The modules [Tiling64], [Normalizer] and [Processor]
      compute with them, as the interpreter does; the module [Tiling] is the
      tiling planner in exact arithmetic, on which the bound of the covering
      ratio and the order of the candidates are studied.
    - The embeddings of [merge_multimodal] are vectors of rationals.
    - A Python exception is a value [Raise e] of the type [result].
    - [range(n)] is the list [0; ...; n-1] of [Z], empty when [n <= 0]. *)

From Stdlib Require Import ZArith QArith Qround Qpower List Bool Lia Lra Psatz.
From Stdlib Require Import PrimFloat FloatOps SpecFloat.
From Stdlib Require Import Permutation.
From Stdlib Require String.
Import ListNotations.
Import String.StringSyntax.
Delimit Scope string_scope with string.

Open Scope Z_scope.

(** ** Exceptions *)

Inductive exn : Type :=
| ZeroDivisionError
| AssertionError
| IndexError
| TypeError
| AttributeError
| RuntimeError (msg : String.string)
| ValueError (msg : String.string).

Inductive result (A : Type) : Type :=
| Ok (a : A)
| Raise (e : exn).

Arguments Ok {A} a.
Arguments Raise {A} e.

Definition bind {A B : Type} (m : result A) (f : A -> result B) : result B :=
  match m with
  | Ok a => f a
  | Raise e => Raise e
  end.

Notation "x <- m ;; k" := (bind m (fun x => k))
  (at level 61, m at next level, right associativity).

(** [mapM f l]: the list comprehension [[f(x) for x in l]], stopping at the
    first exception. *)
Fixpoint mapM {A B : Type} (f : A -> result B) (l : list A) : result (list B) :=
  match l with
  | [] => Ok []
  | x :: l' => y <- f x ;; ys <- mapM f l' ;; Ok (y :: ys)
  end.

(** ** Ranges *)

Definition range2 (lo hi : Z) : list Z :=
  map (fun k => lo + Z.of_nat k) (seq 0 (Z.to_nat (hi - lo))).

Definition range (n : Z) : list Z := range2 0 n.

(** ** Numbers

    A finite binary64 number is a rational [m * 2 ^ e] with [|m| < 2 ^ 53].
    An operation on floats returns the exact result rounded to the nearest
    such number, the one of even [m] when two are as near.  The range of the
    exponent is not modelled: the results are those of binary64 as long as
    no operation overflows or falls below the normal numbers, which is so in
    this program for the integers below [2 ^ 53] (sizes in pixels).  The
    sign of a zero is not modelled either; no comparison depends on it. *)

Module Binary64.

(** The nearest integer, ties to the even one. *)
Definition round_half_even (q : Q) : Z :=
  let f := Qfloor q in
  match (q - inject_Z f ?= 1 # 2)%Q with
  | Lt => f
  | Gt => f + 1
  | Eq => if Z.even f then f else f + 1
  end.

Definition pow2 (e : Z) : Q := (2 ^ e)%Q.

(** The exponent [e] with [2 ^ e <= q < 2 ^ (e + 1)], for [q > 0]. *)
Definition ilog2 (q : Q) : Z :=
  let k := Z.log2 (Qnum q) - Z.log2 (Zpos (Qden q)) in
  if Qle_bool (pow2 k) q then k else k - 1.

(** The nearest number [m * 2 ^ e] with [2 ^ 52 <= m <= 2 ^ 53], for
    [q > 0]. *)
Definition round_pos (q : Q) : Q :=
  let e := ilog2 q - 52 in
  Qred (inject_Z (round_half_even (q / pow2 e)) * pow2 e).

(** The binary64 number nearest to [q]. *)
Definition round (q : Q) : Q :=
  match (q ?= 0)%Q with
  | Eq => 0%Q
  | Gt => round_pos q
  | Lt => (- round_pos (- q))%Q
  end.

(** Half the distance from 1 to the next binary64 number: the bound of the
    relative error of a rounding. *)
Definition ulp_half : Q := pow2 (-53).

(** A Python number: an [int] or a [float]. *)
Inductive num : Type :=
| PyInt (z : Z)
| PyFloat (x : Q).


(** The conversion of an operand to [float]. *)
Definition to_float (n : num) : Q :=
  match n with
  | PyInt z => round (inject_Z z)
  | PyFloat x => x
  end.

(** [a + b] *)
Definition add (a b : num) : num :=
  match a, b with
  | PyInt x, PyInt y => PyInt (x + y)
  | _, _ => PyFloat (round (to_float a + to_float b))
  end.

(** [a * b] *)
Definition mul (a b : num) : num :=
  match a, b with
  | PyInt x, PyInt y => PyInt (x * y)
  | _, _ => PyFloat (round (to_float a * to_float b))
  end.

(** [a / b]: a float; the quotient of two integers is rounded once. *)
Definition truediv (a b : num) : result Q :=
  match a, b with
  | PyInt x, PyInt y =>
      if y =? 0 then Raise ZeroDivisionError
      else Ok (round (inject_Z x / inject_Z y))
  | _, _ =>
      if Qeq_bool (to_float b) 0 then Raise ZeroDivisionError
      else Ok (round (to_float a / to_float b))
  end.

(** [sum(l)] with the items added from left to right, from the integer 0:
    the builtin of CPython up to version 3.11. *)
Definition sum (l : list num) : num := fold_left add l (PyInt 0).

(** The rational that a finite binary64 number of the machine holds, to
    compare the rounding above with the arithmetic of the machine. *)
Definition of_machine (f : PrimFloat.float) : option Q :=
  match Prim2SF f with
  | S754_zero _ => Some 0%Q
  | S754_finite s m e =>
      Some (Qred ((if s then -1 else 1) * inject_Z (Zpos m) * pow2 e))
  | _ => None
  end.

End Binary64.

(** ** Geometry: [preprocess_image] and its local functions *)

Definition grid : Type := (Z * Z)%type.

(** A crop box [(left, upper, right, lower)]. *)
Definition box : Type := (Z * Z * Z * Z)%type.

Definition n_sub_images (g : grid) : Z := fst g * snd g.

Module Tiling.

(** [_partition(img, grid)] with [img.size = (w, h)]. *)
Definition _partition (w h : Z) (g : grid) : list box :=
  let row_height := h / fst g in
  let col_width := w / snd g in
  flat_map (fun row =>
    map (fun col =>
      let left := col * col_width in
      let upper := row * row_height in
      let right := if col =? snd g - 1 then w else (col + 1) * col_width in
      let lower := if row =? fst g - 1 then h else (row + 1) * row_height in
      (left, upper, right, lower))
      (range (snd g)))
    (range (fst g)).

(** [_covering_area(left, upper, right, lower, side)], in exact
    arithmetic. *)
Definition _covering_area (b : box) (side : Z) : result Q :=
  let '(lft, upper, rgt, lower) := b in
  let w0 := rgt - lft in
  let h0 := lower - upper in
  let w := Z.max w0 h0 in
  let h := Z.min w0 h0 in
  if w >? side then
    if w =? 0 then Raise ZeroDivisionError
    else
      let h' := (inject_Z h / inject_Z w * inject_Z side)%Q in
      Ok (inject_Z side * h')%Q
  else Ok (inject_Z (w * h)).

Definition Qsum (l : list Q) : Q := fold_left Qplus l 0%Q.

(** The body of the loop of [_get_best_grid] up to the assertion:
    the sum of [_covering_area] over the boxes of the partition, divided by
    [img_area]. *)
Definition covering_ratio (w h side : Z) (g : grid) : result Q :=
  let img_area := w * h in
  areas <- mapM (fun p => _covering_area p side) (_partition w h g) ;;
  if img_area =? 0 then Raise ZeroDivisionError
  else Ok (Qsum areas / inject_Z img_area)%Q.

(** The double loop that fills [candidate_grids]. *)
Definition candidate_grids (max_partition : Z) : list grid :=
  flat_map (fun i =>
    flat_map (fun j => if i * j <=? max_partition then [(i, j)] else [])
      (range2 1 (max_partition + 1)))
    (range2 1 (max_partition + 1)).

(** *** [sorted]: a stable sort by key *)

Section Sorted.
Context {A : Type}.
Variable ltb : A -> A -> bool.   (* strict order on the keys of the items *)

Fixpoint insert (x : A) (l : list A) : list A :=
match l with
| [] => [x]
| y :: l' => if ltb y x then y :: insert x l' else x :: y :: l'
end.

(** Stable: an item stays before the later items of equal key. *)
Definition sorted (l : list A) : list A := fold_right insert [] l.
End Sorted.

Definition item : Type := (grid * Q)%type.

(** Keys are pairs, compared lexicographically as Python tuples are. *)
Definition Qltb (x y : Q) : bool :=
  match (x ?= y)%Q with Lt => true | _ => false end.
Definition Qeqb (x y : Q) : bool :=
  match (x ?= y)%Q with Eq => true | _ => false end.

(** [key=lambda x: (x[0][0] * x[0][1], -x[1])] *)
Definition good_key_ltb (x y : item) : bool :=
  (n_sub_images (fst x) <? n_sub_images (fst y))
  || ((n_sub_images (fst x) =? n_sub_images (fst y))
      && Qltb (- snd x) (- snd y)).

(** [key=lambda x: (-x[1], x[0][0] * x[0][1])] *)
Definition all_key_ltb (x y : item) : bool :=
  Qltb (- snd x) (- snd y)
  || (Qeqb (- snd x) (- snd y)
      && (n_sub_images (fst x) <? n_sub_images (fst y))).

(** [l[0][0]] *)
Definition first_grid (l : list item) : result grid :=
  match l with
  | [] => Raise IndexError
  | x :: _ => Ok (fst x)
  end.

(** The loop over [candidate_grids]: returns [(all_grids, good_grids)]. *)
Fixpoint scan_grids (w h side : Z) (covering_threshold : Q)
    (candidates : list grid) (all_grids good_grids : list item)
    : result (list item * list item) :=
  match candidates with
  | [] => Ok (all_grids, good_grids)
  | g :: rest =>
      ratio <- covering_ratio w h side g ;;
      if Qle_bool ratio 1 then
        let all_grids := all_grids ++ [(g, ratio)] in
        let good_grids :=
          if Qltb covering_threshold ratio
          then good_grids ++ [(g, ratio)] else good_grids in
        scan_grids w h side covering_threshold rest all_grids good_grids
      else Raise AssertionError
  end.

(** [_get_best_grid] from the point where [candidate_grids] is built. *)
Definition best_grid_of (w h side : Z) (covering_threshold : Q)
    (candidates : list grid) : result grid :=
  lists <- scan_grids w h side covering_threshold candidates [] [] ;;
  let '(all_grids, good_grids) := lists in
  if (0 <? Z.of_nat (length good_grids)) then
    first_grid (sorted good_key_ltb good_grids)
  else
    first_grid (sorted all_key_ltb all_grids).

(** [_get_best_grid(img, side)]; [max_partition] and [covering_threshold]
    are the arguments of the enclosing [preprocess_image]. *)
Definition _get_best_grid (w h side max_partition : Z)
    (covering_threshold : Q) : result grid :=
  best_grid_of w h side covering_threshold (candidate_grids max_partition).

End Tiling.

(** *** The tiling planner in binary64 arithmetic

    [_partition], the list of the candidates, the keys and [sorted] are
    those of [Tiling]: they compute on integers, and compare the ratios. *)

Module Tiling64.
Import Binary64.

Section WithSum.
(** The builtin [sum].  CPython adds the floats from left to right up to
    version 3.11 ([Binary64.sum]), and compensates the rounding errors of
    the additions from version 3.12 on. *)
Variable py_sum : list num -> num.

(** [_covering_area(left, upper, right, lower, side)]: an [int] for a box
    that fits in the side, a [float] for a box that is scaled. *)
Definition _covering_area (b : box) (side : Z) : result num :=
  let '(lft, upper, rgt, lower) := b in
  let w0 := rgt - lft in
  let h0 := lower - upper in
  let w := Z.max w0 h0 in
  let h := Z.min w0 h0 in
  if w >? side then
    q <- truediv (PyInt h) (PyInt w) ;;
    let h := mul (PyFloat q) (PyInt side) in
    let w := PyInt side in
    Ok (mul w h)
  else Ok (mul (PyInt w) (PyInt h)).

(** The sum of [_covering_area] over the boxes of the partition, divided
    by [img_area]. *)
Definition covering_ratio (w h side : Z) (g : grid) : result Q :=
  let img_area := w * h in
  areas <- mapM (fun p => _covering_area p side) (Tiling._partition w h g) ;;
  truediv (py_sum areas) (PyInt img_area).

(** The loop over [candidate_grids]: returns [(all_grids, good_grids)]. *)
Fixpoint scan_grids (w h side : Z) (covering_threshold : Q)
    (candidates : list grid) (all_grids good_grids : list Tiling.item)
    : result (list Tiling.item * list Tiling.item) :=
  match candidates with
  | [] => Ok (all_grids, good_grids)
  | g :: rest =>
      ratio <- covering_ratio w h side g ;;
      if Qle_bool ratio 1 then
        let all_grids := all_grids ++ [(g, ratio)] in
        let good_grids :=
          if Tiling.Qltb covering_threshold ratio
          then good_grids ++ [(g, ratio)] else good_grids in
        scan_grids w h side covering_threshold rest all_grids good_grids
      else Raise AssertionError
  end.

(** The two [return] statements of [_get_best_grid]. *)
Definition pick (all_grids good_grids : list Tiling.item) : result grid :=
  if (0 <? Z.of_nat (length good_grids)) then
    Tiling.first_grid (Tiling.sorted Tiling.good_key_ltb good_grids)
  else
    Tiling.first_grid (Tiling.sorted Tiling.all_key_ltb all_grids).

(** [_get_best_grid(img, side)] with [img.size = (w, h)]; [max_partition]
    and [covering_threshold] are the arguments of the enclosing
    [preprocess_image]. *)
Definition _get_best_grid (w h side max_partition : Z)
    (covering_threshold : Q) : result grid :=
  lists <- scan_grids w h side covering_threshold
             (Tiling.candidate_grids max_partition) [] [] ;;
  pick (fst lists) (snd lists).
End WithSum.

End Tiling64.

(** ** [construct_image_placeholders] *)

(** The keys of [tokenizer.extra_special_tokens] that the processor reads. *)
Inductive special : Type :=
| image_token
| image_start
| image_atom
| image_prefix
| image_col_sep
| image_row_sep
| image_end.

Module Placeholders.
Section WithTokenizer.
(** [get_token_value(tok)]: the id the tokenizer gives to a special token. *)
Variable get_token_value : special -> Z.

Definition construct_image_placeholders (g : grid) : list Z :=
let image_placeholders :=
[get_token_value image_start;
 get_token_value image_atom;
 get_token_value image_prefix] in
let image_placeholders :=
if fst g * snd g >? 1 then
image_placeholders ++
flat_map (fun r =>
flat_map (fun c =>
get_token_value image_atom ::
(if c <? snd g - 1 then [get_token_value image_col_sep] else []))
(range (snd g))
++ (if r <? fst g - 1 then [get_token_value image_row_sep] else []))
(range (fst g))
else image_placeholders in
image_placeholders ++ [get_token_value image_end].
End WithTokenizer.
End Placeholders.

(** ** Tensors of pixels

    A tensor of shape [[1, 3, H, W]] is a height, a width and the pixel at each
    row and column; a pixel stands for its three channel values.  Only the
    entries with [0 <= i < H] and [0 <= j < W] are meaningful. *)

Record tensor (P : Type) : Type := Tensor {
  t_height : Z;
  t_width : Z;
  t_at : Z -> Z -> P
}.

Arguments Tensor {P} _ _ _.
Arguments t_height {P} _.
Arguments t_width {P} _.
Arguments t_at {P} _ _ _.

(** The image library, the image processor and its configuration, as the
    processor uses them. *)
Class ImageBackend (Image P : Type) : Type := {
  (** [img.size], as [(width, height)] *)
  img_size : Image -> Z * Z;
  (** [img.crop(box)] *)
  img_crop : Image -> box -> Image;
  (** [img.mode == 'RGB'] *)
  img_is_rgb : Image -> bool;
  (** [img.convert('RGB')] *)
  img_convert_rgb : Image -> Image;
  (** [image_processor.preprocess(img, size=dict(height=.., width=..))]
      ['pixel_values'] *)
  processor_preprocess : Image -> Z -> Z -> tensor P;
  (** [image_processor.crop_size], as [(height, width)] *)
  crop_size : Z * Z;
  (** the value [torch.zeros] fills with *)
  pixel_zero : P
}.

Module Normalizer.

(** [int(q)]: truncation towards zero. *)
Definition py_int (q : Q) : Z :=
  if Qle_bool 0 q then Qfloor q else Qceiling q.

(** [int(a / b * side)]: the quotient is rounded, and the product again. *)
Definition scaled_side (a b side : Z) : result Z :=
  q <- Binary64.truediv (Binary64.PyInt a) (Binary64.PyInt b) ;;
  Ok (py_int (Binary64.to_float
                (Binary64.mul (Binary64.PyFloat q) (Binary64.PyInt side)))).

(** The first part of [_preprocess]: [(new_height, new_width)]. *)
Definition new_size (w h side : Z) : result (Z * Z) :=
  if w =? h then Ok (side, side)
  else if w >? h then
    new_height <- scaled_side h w side ;; Ok (new_height, side)
  else
    new_width <- scaled_side w h side ;; Ok (side, new_width).

(** A bound of a slice [a:b] on a dimension of length [n]. *)
Definition slice_index (n x : Z) : Z :=
  if x <? 0 then Z.max 0 (x + n) else Z.min x n.

Definition slice_bounds (n start stop : Z) : Z * Z :=
  let a := slice_index n start in
  (a, Z.max a (slice_index n stop)).

Definition broadcastable (src dst : Z) : bool := (src =? dst) || (src =? 1).

Definition shape_mismatch : exn :=
  RuntimeError
    "The expanded size of the tensor must match the existing size"%string.

Section Assign.
Context {P : Type}.

(** [torch.zeros([1, 3, side, side])] *)
Definition zeros (zero : P) (side : Z) : result (tensor P) :=
if side <? 0 then
Raise (RuntimeError
"Trying to create tensor with negative dimension"%string)
else Ok (Tensor side side (fun _ _ => zero)).

(** [dst[:, :, r0:r1, c0:c1] = src], with broadcasting of [src]; the full
slice [:] of a dimension of length [n] is [0:n]. *)
Definition assign_slice (dst : tensor P) (rows cols : Z * Z)
(src : tensor P) : result (tensor P) :=
let '(r0, r1) := slice_bounds (t_height dst) (fst rows) (snd rows) in
let '(c0, c1) := slice_bounds (t_width dst) (fst cols) (snd cols) in
if broadcastable (t_height src) (r1 - r0)
 && broadcastable (t_width src) (c1 - c0)
then
Ok (Tensor (t_height dst) (t_width dst) (fun i j =>
if (r0 <=? i) && (i <? r1) && (c0 <=? j) && (j <? c1) then
t_at src (if t_height src =? r1 - r0 then i - r0 else 0)
 (if t_width src =? c1 - c0 then j - c0 else 0)
else t_at dst i j))
else Raise shape_mismatch.
End Assign.

Section WithBackend.
Context {Image P : Type} `{ImageBackend Image P}.

(** The second part of [_preprocess]: pad [pixel_values] to a square. *)
Definition pad_to_square (pixel_values : tensor P) (side : Z)
: result (tensor P) :=
square_values <- zeros pixel_zero side ;;
let new_height := t_height pixel_values in
let new_width := t_width pixel_values in
if new_height =? new_width then
assign_slice square_values (0, side) (0, side) pixel_values
else if new_height >? new_width then
let from_index := (side - new_width) / 2 in
assign_slice square_values (0, side)
(from_index, from_index + new_width) pixel_values
else
let from_index := (side - new_height) / 2 in
assign_slice square_values (from_index, from_index + new_height)
(0, side) pixel_values.

(** [_preprocess(img, side)] *)
Definition _preprocess (img : Image) (side : Z) : result (tensor P) :=
let '(w, h) := img_size img in
size <- new_size w h side ;;
let pixel_values := processor_preprocess img (fst size) (snd size) in
pad_to_square pixel_values side.
End WithBackend.

End Normalizer.

(** ** [OvisProcessor] *)

(** The [images] argument: [None], one image, or a list of images. *)
Inductive images_arg (Image : Type) : Type :=
| NoImages
| OneImage (image : Image)
| ImageList (images : list Image).

Arguments NoImages {Image}.
Arguments OneImage {Image} image.
Arguments ImageList {Image} images.

(** The [text] argument: [None], one text, or a list of texts. *)
Inductive text_arg (Text : Type) : Type :=
| NoText
| OneText (text : Text)
| TextList (texts : list Text).

Arguments NoText {Text}.
Arguments OneText {Text} text.
Arguments TextList {Text} texts.

(** The keys a returned [BatchFeature] can hold; [None] is an absent key. *)
Record BatchFeature (P : Type) : Type := MkBatchFeature {
  input_ids : option (list (list Z));
  attention_mask : option (list (list Z));
  pixel_values : option (list (list (tensor P)));
  grids : option (list grid);
  image_placeholders : option (list (list Z))
}.

Arguments MkBatchFeature {P} _ _ _ _ _.
Arguments input_ids {P} _.
Arguments attention_mask {P} _.
Arguments pixel_values {P} _.
Arguments grids {P} _.
Arguments image_placeholders {P} _.

Module Processor.

Definition non_square : exn :=
  ValueError "get_image_size() returns non-square size"%string.

Definition mismatch : exn :=
  RuntimeError
    "Mismatch between the images you provided and the number of placeholder present in the text"%string.

Definition stack_mismatch : exn :=
  RuntimeError "stack expects each tensor to be equal size"%string.

Definition cat_empty : exn :=
  RuntimeError "torch.cat(): expected a non-empty list of Tensors"%string.

(** [torch.cat(tiles, dim=0)] of tiles of shape [[1, 3, side, side]]: the
    list of the tiles. *)
Definition cat {A : Type} (l : list A) : result (list A) :=
  match l with
  | [] => Raise cat_empty
  | _ => Ok l
  end.

(** [torch.stack] of one-dimensional tensors. *)
Definition stack (l : list (list Z)) : result (list (list Z)) :=
  match l with
  | [] => Raise stack_mismatch
  | x :: rest =>
      if forallb (fun y => Nat.eqb (length y) (length x)) rest
      then Ok l else Raise stack_mismatch
  end.

(** [l[i]] *)
Definition index {A : Type} (l : list A) (i : nat) : result A :=
  match nth_error l i with
  | Some a => Ok a
  | None => Raise IndexError
  end.

Section WithCollaborators.
Context {Image P Text : Type} `{ImageBackend Image P}.
(** The builtin [sum], see [Tiling64]. *)
Variable py_sum : list Binary64.num -> Binary64.num.
Variable get_token_value : special -> Z.
(** [tokenizer.batch_encode_plus(text, ...)]: ['input_ids'] and
['attention_mask'] *)
Variable batch_encode_plus : list Text -> list (list Z) * list (list Z).

Definition get_image_size : Z * Z := crop_size.

Definition preprocess_image (image : Image) (max_partition : Z)
(covering_threshold : Q) (convert_to_rgb : bool)
: result (list (tensor P) * list Z * grid) :=
let image :=
if convert_to_rgb && negb (img_is_rgb image)
then img_convert_rgb image else image in
let sides := get_image_size in
if negb (fst sides =? snd sides) then Raise non_square
else
let side := fst sides in
let '(w, h) := img_size image in
grid <- Tiling64._get_best_grid py_sum w h side max_partition
covering_threshold ;;
let partition := Tiling._partition w h grid in
let crops := map (img_crop image) partition in
let crops :=
if (1 <? Z.of_nat (length crops)) then image :: crops else crops in
tiles <- mapM (fun crop => Normalizer._preprocess crop side) crops ;;
pixel_values <- cat tiles ;;
let image_placeholders :=
Placeholders.construct_image_placeholders get_token_value grid in
Ok (pixel_values, image_placeholders, grid).

(** The inner loop of [__call__] that replaces the image tokens of one
sample, from position [i] on. *)
Fixpoint replace_placeholders (image_token_id : Z) (placeholder_ids : list Z)
(attn_list : list Z) (i : nat) (ids_list : list Z)
: result (list Z * list Z) :=
match ids_list with
| [] => Ok ([], [])
| token_id :: rest =>
if token_id =? image_token_id then
r <- replace_placeholders image_token_id placeholder_ids attn_list
 (S i) rest ;;
Ok (placeholder_ids ++ fst r,
repeat 1 (length placeholder_ids) ++ snd r)
else
a <- index attn_list i ;;
r <- replace_placeholders image_token_id placeholder_ids attn_list
 (S i) rest ;;
Ok (token_id :: fst r, a :: snd r)
end.

(** [image_token_id in ids_tensor] *)
Definition contains (image_token_id : Z) (ids : list Z) : bool :=
existsb (Z.eqb image_token_id) ids.

(** The loop of [__call__] over the tokenized samples; [placeholders] is
[image_features.get("image_placeholders")].  Returns
[(replaced_ids_list, replaced_attn_mask_list, idx)]. *)
Fixpoint replace_samples (image_token_id : Z)
(placeholders : option (list (list Z)))
(samples : list (list Z * list Z)) (idx : nat)
: result (list (list Z) * list (list Z) * nat) :=
match samples with
| [] => Ok ([], [], idx)
| (ids_tensor, attn_mask) :: rest =>
step <-
match placeholders with
| Some image_placeholders_list =>
if contains image_token_id ids_tensor then
if (idx <? length image_placeholders_list)%nat then
placeholder_ids <- index image_placeholders_list idx ;;
r <- replace_placeholders image_token_id placeholder_ids
 attn_mask 0 ids_tensor ;;
Ok (fst r, snd r, S idx)
else Raise mismatch
else Ok (ids_tensor, attn_mask, idx)
| None => Ok (ids_tensor, attn_mask, idx)
end ;;
let '(ids_tensor, attn_mask, idx) := step in
r <- replace_samples image_token_id placeholders rest idx ;;
let '(ids_rest, attn_rest, idx) := r in
Ok (ids_tensor :: ids_rest, attn_mask :: attn_rest, idx)
end.

Definition images_list (images : images_arg Image) : list Image :=
match images with
| NoImages => []
| OneImage image => [image]
| ImageList l => l
end.

Definition text_list (text : text_arg Text) : list Text :=
match text with
| NoText => []
| OneText t => [t]
| TextList l => l
end.

(** [OvisProcessor.__call__(images, text, **kwargs)]; the keyword
arguments are those of [images_kwargs]. *)
Definition __call__ (images : images_arg Image) (text : text_arg Text)
(max_partition : Z) (covering_threshold : Q) (convert_to_rgb : bool)
: result (BatchFeature P) :=
(* Process all images first *)
processed <-
match images with
| NoImages => Ok []
| _ => mapM (fun image =>
 preprocess_image image max_partition covering_threshold
 convert_to_rgb) (images_list images)
end ;;
let processed_images := map (fun r => fst (fst r)) processed in
let image_placeholders_list := map (fun r => snd (fst r)) processed in
let grids := map snd processed in
let image_features :=
match processed_images with
| [] => None
| _ => Some image_placeholders_list
end in
match text with
| NoText =>
(* only images were provided *)
Ok (MkBatchFeature None None None None image_features)
| _ =>
let tokenized_batched_text := batch_encode_plus (text_list text) in
let image_token_id := get_token_value image_token in
r <- replace_samples image_token_id image_features
 (combine (fst tokenized_batched_text)
(snd tokenized_batched_text)) 0 ;;
let '(replaced_ids_list, replaced_attn_mask_list, _) := r in
stacked <-
match replaced_ids_list with
| [] => Ok ([], [])
| _ =>
ids <- stack replaced_ids_list ;;
attn <- stack replaced_attn_mask_list ;;
Ok (ids, attn)
end ;;
match image_features with
| Some _ =>
Ok (MkBatchFeature (Some (fst stacked)) (Some (snd stacked))
(Some processed_images) (Some grids) None)
| None =>
Ok (MkBatchFeature (Some (fst stacked)) (Some (snd stacked))
None None None)
end
end.
End WithCollaborators.

End Processor.

(** ** [Ovis.merge_multimodal]

    An embedding is a vector of rationals; a sequence of embeddings (a tensor
    of shape [[length, hidden]]) is a list of vectors. *)

Definition embedding : Type := list Q.

Module Composer.

Definition split_mismatch : exn :=
  RuntimeError
    "split_with_sizes expects split_sizes to sum exactly to the size of the dimension"%string.

Definition pad_empty : exn :=
  RuntimeError "received an empty list of sequences"%string.

(** [torch.split(l, split_size_or_sections=sections, dim=0)] *)
Fixpoint split {A : Type} (l : list A) (sections : list nat)
    : result (list (list A)) :=
  match sections with
  | [] => match l with [] => Ok [] | _ => Raise split_mismatch end
  | n :: rest =>
      if (n <=? length l)%nat then
        r <- split (skipn n l) rest ;; Ok (firstn n l :: r)
      else Raise split_mismatch
  end.

(** [l[a:b]] and [l[a:]] for [0 <= a] and [0 <= b]. *)
Definition slice {A : Type} (l : list A) (a b : Z) : list A :=
  firstn (Z.to_nat (b - a)) (skipn (Z.to_nat a) l).

Definition slice_from {A : Type} (l : list A) (a : Z) : list A :=
  skipn (Z.to_nat a) l.

(** [l[:stop]], for any [stop]. *)
Definition truncate {A : Type} (l : list A) (stop : Z) : list A :=
  firstn (Z.to_nat (Normalizer.slice_index (Z.of_nat (length l)) stop)) l.

(** [zip] of six sequences: as long as the shortest. *)
Fixpoint zip6 {A B C D E F : Type} (a : list A) (b : list B) (c : list C)
    (d : list D) (e : list E) (f : list F) : list (A * B * C * D * E * F) :=
  match a, b, c, d, e, f with
  | x :: a', y :: b', z :: c', u :: d', v :: e', w :: f' =>
      (x, y, z, u, v, w) :: zip6 a' b' c' d' e' f'
  | _, _, _, _, _, _ => []
  end.

(** The heap of the tensors of embeddings: an object is its position.  A
    tensor is a sequence of embeddings (shape [[length, hidden]]) or a batch
    of sequences (shape [[batch, length, hidden]]). *)
Inductive cell : Type :=
| Seq (v : list embedding)
| Batch (v : list (list embedding)).

Definition heap : Type := list cell.
Definition ref : Type := nat.

Definition alloc (hp : heap) (c : cell) : heap * ref :=
  (hp ++ [c], length hp).

Definition deref (hp : heap) (r : ref) : list embedding :=
  match nth_error hp r with
  | Some (Seq v) => v
  | _ => []
  end.

Definition deref_batch (hp : heap) (r : ref) : list (list embedding) :=
  match nth_error hp r with
  | Some (Batch v) => v
  | _ => []
  end.

(** The update in place of a sequence of embeddings. *)
Fixpoint update (hp : heap) (r : ref) (f : list embedding -> list embedding)
    : heap :=
  match hp, r with
  | [], _ => []
  | c :: hp', O =>
      match c with
      | Seq v => Seq (f v)
      | Batch _ => c
      end :: hp'
  | c :: hp', S r' => c :: update hp' r' f
  end.

Section WithModel.
Context {Tile SoftToken : Type}.
(** [ovis.util.constants] *)
Variable IGNORE_INDEX : Z.
Variable IMAGE_TOKEN_INDEX : Z.
(** [self.get_wte()]: the text embedding table *)
Variable wte : Z -> embedding.
(** [self.visual_tokenizer] on a stack of tiles: the soft tokens of each
tile *)
Variable visual_tokenizer : list Tile -> list (list SoftToken).
(** [self.get_vte()] on one soft token *)
Variable vte : SoftToken -> embedding.
(** [torch.argmax(_, dim=-1)] on one soft token *)
Variable argmax : SoftToken -> Z.
(** [self.config.hidden_size] and [self.config.multimodal_max_length] *)
Variable hidden_size : nat.
Variable multimodal_max_length : Z.

(** What the first part of [merge_multimodal] computes for the batch:
[(visual_embeds, visual_input_ids, visual_labels)], one entry per
sample, [None] where the code leaves a placeholder. *)
Definition visual_parts : Type :=
(list (option (list (list embedding)))
 * list (option (list (list Z)))
 * list (option (list (list Z))))%type.

Definition embed_tokens (visual_tokens : list (list SoftToken))
(num_images : list nat) : result visual_parts :=
visual_embeds <- split (map (map vte) visual_tokens) num_images ;;
visual_input_ids <- split (map (map argmax) visual_tokens) num_images ;;
let visual_labels :=
map (map (map (fun _ => IGNORE_INDEX))) visual_input_ids in
Ok (map Some visual_embeds, map Some visual_input_ids,
map Some visual_labels).

Definition visual_training (pixel_values : list (option (list Tile)))
: result visual_parts :=
shapes <- mapM (fun x =>
match x with
| Some tiles => Ok tiles
| None => Raise AttributeError
end) pixel_values ;;
let num_images := map (@length Tile) shapes in
stacked <- Processor.cat shapes ;;
embed_tokens (visual_tokenizer (concat stacked)) num_images.

Definition visual_inference (pixel_values : list (option (list Tile)))
: result visual_parts :=
let num_images :=
map (fun x => match x with Some tiles => length tiles | None => O end)
pixel_values in
if (0 <? fold_left Nat.add num_images O)%nat then
let present :=
flat_map (fun x => match x with Some tiles => [tiles] | None => [] end)
pixel_values in
embed_tokens (visual_tokenizer (concat present)) num_images
else
let n := length num_images in
Ok (repeat None n, repeat None n, repeat None n).

(** [torch.where(image_token_mask)[0].tolist()], from position [i] on. *)
Fixpoint image_token_positions (i : Z) (text_input_id : list Z) : list Z :=
match text_input_id with
| [] => []
| t :: rest =>
if t =? IMAGE_TOKEN_INDEX
then i :: image_token_positions (i + 1) rest
else image_token_positions (i + 1) rest
end.

(** [self.get_wte()(torch.masked_fill(text_input_id, image_token_mask, 0))] *)
Definition text_embed_of (text_input_id : list Z) : list embedding :=
map (fun t => wte (if t =? IMAGE_TOKEN_INDEX then 0 else t)) text_input_id.

(** [x[index]] on a per-sample visual entry. *)
Definition visual_index {A : Type} (x : option (list A)) (index : nat)
: result A :=
match x with
| None => Raise TypeError
| Some l => Processor.index l index
end.

Definition parts : Type :=
(list (list embedding) * list (list bool) * list (list Z))%type.

(** The loop over [enumerate(image_token_positions)], from [index] on. *)
Fixpoint merge_loop (text_embed : list embedding) (text_label : list Z)
(text_attention_mask : list bool)
(visual_embed : option (list (list embedding)))
(visual_label : option (list (list Z)))
(positions : list Z) (index : nat) (prev_image_token_position : Z)
(acc : parts) : result (parts * Z) :=
match positions with
| [] => Ok (acc, prev_image_token_position)
| image_token_position :: rest =>
let '(input_embed_parts, attention_mask_parts, label_parts) := acc in
let input_embed_parts := input_embed_parts ++
[slice text_embed (prev_image_token_position + 1)
 image_token_position] in
let label_parts := label_parts ++
[slice text_label (prev_image_token_position + 1)
 image_token_position] in
let attention_mask_parts := attention_mask_parts ++
[slice text_attention_mask (prev_image_token_position + 1)
 image_token_position] in
ve <- visual_index visual_embed index ;;
let input_embed_parts := input_embed_parts ++ [ve] in
vl <- visual_index visual_label index ;;
let attention_mask_parts := attention_mask_parts ++
[map (fun _ => true) vl] in
let label_parts := label_parts ++ [vl] in
merge_loop text_embed text_label text_attention_mask visual_embed
visual_label rest (S index) image_token_position
(input_embed_parts, attention_mask_parts, label_parts)
end.

Definition merged : Type := (list embedding * list bool * list Z)%type.

(** The branch [len(image_token_positions) > 0]. *)
Definition merge_parts (text_input_id : list Z) (text_embed : list embedding)
(text_label : list Z) (text_attention_mask : list bool)
(visual_embed : option (list (list embedding)))
(visual_label : option (list (list Z))) (positions : list Z)
: result merged :=
r <- merge_loop text_embed text_label text_attention_mask visual_embed
 visual_label positions 0 (-1) ([], [], []) ;;
let '(input_embed_parts, attention_mask_parts, label_parts, prev) := r in
let '(input_embed_parts, attention_mask_parts, label_parts) :=
if prev + 1 <? Z.of_nat (length text_input_id) then
(input_embed_parts ++ [slice_from text_embed (prev + 1)],
 attention_mask_parts ++ [slice_from text_attention_mask (prev + 1)],
 label_parts ++ [slice_from text_label (prev + 1)])
else (input_embed_parts, attention_mask_parts, label_parts) in
Ok (concat input_embed_parts, concat attention_mask_parts,
concat label_parts).

(** [torch.sum(visual_embed * 0.0)] *)
Definition zero_term (visual_embed : option (list (list embedding)))
: result Q :=
match visual_embed with
| None => Raise TypeError
| Some ve =>
Ok (Tiling.Qsum
(map (fun x => (x * 0)%Q) (concat (concat ve))))
end.

(** [input_embed += s], on the value of the tensor. *)
Definition add_scalar (s : Q) (input_embed : list embedding)
: list embedding :=
map (map (fun x => (x + s)%Q)) input_embed.

(** The body of the loop over the samples, on values. *)
Definition merge_sample (training : bool) (text_input_id : list Z)
(text_label : list Z) (text_attention_mask : list bool)
(visual_embed : option (list (list embedding)))
(visual_label : option (list (list Z))) : result merged :=
let text_embed := text_embed_of text_input_id in
let positions := image_token_positions 0 text_input_id in
if (0 <? length positions)%nat then
merge_parts text_input_id text_embed text_label text_attention_mask
visual_embed visual_label positions
else if training then
s <- zero_term visual_embed ;;
Ok (add_scalar s text_embed, text_attention_mask, text_label)
else Ok (text_embed, text_attention_mask, text_label).

(** The same body on objects: [text_embed] and [input_embed] are
references into the heap.  [torch.cat] makes a new tensor, the
assignment [input_embed = text_embed] does not, and [+=] updates the
tensor it is applied to. *)
Record sample_objects : Type := MkSampleObjects {
obj_text_embed : ref;
obj_input_embed : ref;
obj_attention_mask : list bool;
obj_label : list Z
}.

Definition merge_sample_obj (hp : heap) (training : bool)
(text_input_id : list Z) (text_label : list Z)
(text_attention_mask : list bool)
(visual_embed : option (list (list embedding)))
(visual_label : option (list (list Z)))
: result (heap * sample_objects) :=
let '(hp, text_embed) := alloc hp (Seq (text_embed_of text_input_id)) in
let positions := image_token_positions 0 text_input_id in
if (0 <? length positions)%nat then
m <- merge_parts text_input_id (deref hp text_embed) text_label
 text_attention_mask visual_embed visual_label positions ;;
let '(embeds, attention_mask, label) := m in
let '(hp, input_embed) := alloc hp (Seq embeds) in
Ok (hp, MkSampleObjects text_embed input_embed attention_mask label)
else
let input_embed := text_embed in
if training then
s <- zero_term visual_embed ;;
Ok (update hp input_embed (add_scalar s),
MkSampleObjects text_embed input_embed text_attention_mask
text_label)
else
Ok (hp, MkSampleObjects text_embed input_embed text_attention_mask
text_label).

(** [torch.nn.utils.rnn.pad_sequence(seqs, batch_first=True,
padding_value=pad)[:, :multimodal_max_length]] *)
Definition pad_truncate {A : Type} (pad : A) (seqs : list (list A))
: result (list (list A)) :=
match seqs with
| [] => Raise pad_empty
| _ =>
let longest := fold_right Nat.max O (map (@length A) seqs) in
Ok (map (fun l =>
truncate (l ++ repeat pad (longest - length l))
multimodal_max_length) seqs)
end.

(** [merge_multimodal]; returns [(visual_input_ids, batch_input_embeds,
batch_labels, batch_attention_mask)]. *)
Definition merge_multimodal (training : bool)
(text_input_ids : list (list Z))
(text_attention_masks : list (list bool))
(text_labels : option (list (list Z)))
(pixel_values : list (option (list Tile)))
: result (list (option (list (list Z))) * list (list embedding)
* list (list Z) * list (list bool)) :=
v <- (if training then visual_training pixel_values
else visual_inference pixel_values) ;;
let '(visual_embeds, visual_input_ids, visual_labels) := v in
text_labels <-
(if training then
 match text_labels with
 | Some l => Ok l
 | None => Raise TypeError
 end
 else Ok (map (map (fun _ => IGNORE_INDEX)) text_input_ids)) ;;
samples <- mapM (fun s =>
let '(text_input_id, text_label, text_attention_mask,
visual_embed, _, visual_label) := s in
merge_sample training text_input_id text_label text_attention_mask
visual_embed visual_label)
(zip6 text_input_ids text_labels text_attention_masks visual_embeds
 visual_input_ids visual_labels) ;;
let input_embeds := map (fun m => fst (fst m)) samples in
let attention_masks := map (fun m => snd (fst m)) samples in
let labels := map snd samples in
batch_input_embeds <- pad_truncate (repeat 0%Q hidden_size) input_embeds ;;
batch_attention_mask <- pad_truncate false attention_masks ;;
batch_labels <- pad_truncate IGNORE_INDEX labels ;;
Ok (visual_input_ids, batch_input_embeds, batch_labels,
batch_attention_mask).

(** The loop over the samples, on objects. *)
Fixpoint merge_samples_obj (hp : heap) (training : bool)
    (samples : list (list Z * list Z * list bool
                     * option (list (list embedding))
                     * option (list (list Z)) * option (list (list Z))))
    : result (heap * list sample_objects) :=
  match samples with
  | [] => Ok (hp, [])
  | s :: rest =>
      let '(text_input_id, text_label, text_attention_mask,
            visual_embed, _, visual_label) := s in
      r <- merge_sample_obj hp training text_input_id text_label
             text_attention_mask visual_embed visual_label ;;
      r' <- merge_samples_obj (fst r) training rest ;;
      Ok (fst r', snd r :: snd r')
  end.

(** [merge_multimodal] on objects.  [pad_sequence] reads the tensors of the
    samples and makes a new tensor, and its slice is a new view of that
    tensor: [batch_input_embeds] is a new object.  Returns the heap, the
    objects of the samples of the loop, and the tuple returned, in which
    [batch_input_embeds] is a reference. *)
Definition merge_multimodal_obj (hp : heap) (training : bool)
    (text_input_ids : list (list Z))
    (text_attention_masks : list (list bool))
    (text_labels : option (list (list Z)))
    (pixel_values : list (option (list Tile)))
    : result (heap * list sample_objects
              * (list (option (list (list Z))) * ref
                 * list (list Z) * list (list bool))) :=
  v <- (if training then visual_training pixel_values
        else visual_inference pixel_values) ;;
  let '(visual_embeds, visual_input_ids, visual_labels) := v in
  text_labels <-
    (if training then
       match text_labels with
       | Some l => Ok l
       | None => Raise TypeError
       end
     else Ok (map (map (fun _ => IGNORE_INDEX)) text_input_ids)) ;;
  r <- merge_samples_obj hp training
         (zip6 text_input_ids text_labels text_attention_masks visual_embeds
            visual_input_ids visual_labels) ;;
  let hp := fst r in
  let objs := snd r in
  let input_embeds := map (fun o => deref hp (obj_input_embed o)) objs in
  let attention_masks := map obj_attention_mask objs in
  let labels := map obj_label objs in
  padded <- pad_truncate (repeat 0%Q hidden_size) input_embeds ;;
  let '(hp, batch_input_embeds) := alloc hp (Batch padded) in
  batch_attention_mask <- pad_truncate false attention_masks ;;
  batch_labels <- pad_truncate IGNORE_INDEX labels ;;
  Ok (hp, objs, (visual_input_ids, batch_input_embeds, batch_labels,
                 batch_attention_mask)).
End WithModel.

End Composer.

(** ** Vocabulary of the statements *)

Definition zsum (l : list Z) : Z := fold_right Z.add 0 l.

(** The band [k] of [n] bands on a side of [total] pixels, as [_partition]
    computes its two bounds. *)
Definition band_lo (n total k : Z) : Z := k * (total / n).
Definition band_hi (n total k : Z) : Z :=
  if k =? n - 1 then total else (k + 1) * (total / n).

Definition box_left (b : box) : Z := fst (fst (fst b)).
Definition box_upper (b : box) : Z := snd (fst (fst b)).
Definition box_right (b : box) : Z := snd (fst b).
Definition box_lower (b : box) : Z := snd b.

Definition box_area (b : box) : Z :=
  (box_right b - box_left b) * (box_lower b - box_upper b).

(** The pixel [(x, y)] lies in the box. *)
Definition in_box (x y : Z) (b : box) : Prop :=
  box_left b <= x < box_right b /\ box_upper b <= y < box_lower b.

(** Two boxes share a pixel. *)
Definition overlap (b1 b2 : box) : Prop :=
  exists x y, in_box x y b1 /\ in_box x y b2.

(** [covering_ratio] returns [q] for the grid [g]. *)
Definition ratio_is (w h side : Z) (g : grid) (q : Q) : Prop :=
  Tiling.covering_ratio w h side g = Ok q.

(** A good grid: its covering ratio is above the threshold. *)
Definition good_grid (w h side : Z) (tau : Q) (g : grid) : Prop :=
  exists q, ratio_is w h side g q /\ (tau < q)%Q.

(** The selection rule of the tiling planner, for the grid [g] chosen among
    [candidates]. *)
Definition selection_rule (w h side : Z) (tau : Q) (candidates : list grid)
    (g : grid) : Prop :=
  exists q, ratio_is w h side g q
  /\ ((exists g', In g' candidates /\ good_grid w h side tau g') ->
      (tau < q)%Q
      /\ forall g' q', In g' candidates -> ratio_is w h side g' q' ->
           (tau < q')%Q ->
           n_sub_images g <= n_sub_images g'
           /\ (n_sub_images g' = n_sub_images g -> (q' <= q)%Q))
  /\ (~ (exists g', In g' candidates /\ good_grid w h side tau g') ->
      forall g' q', In g' candidates -> ratio_is w h side g' q' ->
        (q' <= q)%Q
        /\ ((q' == q)%Q -> n_sub_images g <= n_sub_images g')).

(** The ratio that [covering_ratio] returns, 0 if it raises. *)
Definition ratio_val (w h side : Z) (g : grid) : Q :=
  match Tiling.covering_ratio w h side g with
  | Ok q => q
  | Raise _ => 0%Q
  end.

(** The token sequence [ids] with every occurrence of the image token
    replaced by [placeholder_ids]. *)
Definition expand (image_token_id : Z) (placeholder_ids ids : list Z)
    : list Z :=
  flat_map (fun t => if t =? image_token_id then placeholder_ids else [t]) ids.

(** The number of occurrences of a token. *)
Definition count_token (t : Z) (ids : list Z) : nat :=
  length (filter (Z.eqb t) ids).

(** The number of samples in which the image token occurs at least once. *)
Definition with_image_token (image_token_id : Z)
    (samples : list (list Z * list Z)) : nat :=
  length (filter (fun s => (0 <? count_token image_token_id (fst s))%nat)
            samples).

(** *** A small instance of the collaborators, to run the processor

    An image is its size; the image processor returns a tensor of the size it
    is asked for, filled with the pixel 7; the crop size is 2 by 2.  A text
    is already a list of token ids, and its attention mask is all ones. *)
Module Demo.

Definition Image : Type := (Z * Z)%type.

#[export] Instance backend : ImageBackend Image Z := {
  img_size := fun img => img;
  img_crop := fun _ b => (box_right b - box_left b, box_lower b - box_upper b);
  img_is_rgb := fun _ => true;
  img_convert_rgb := fun img => img;
  processor_preprocess := fun _ height width => Tensor height width (fun _ _ => 7);
  crop_size := (2, 2);
  pixel_zero := 0
}.

Definition tok (s : special) : Z :=
  match s with
  | image_token => 100
  | image_start => 101
  | image_atom => 102
  | image_prefix => 103
  | image_col_sep => 104
  | image_row_sep => 105
  | image_end => 106
  end.

Definition batch_encode_plus (texts : list (list Z))
    : list (list Z) * list (list Z) :=
  (texts, map (map (fun _ => 1)) texts).

Definition call (images : images_arg Image) (text : text_arg (list Z))
    : result (BatchFeature Z) :=
  Processor.__call__ Binary64.sum tok batch_encode_plus images text 9
    (Binary64.round (9 # 10)) true.

End Demo.

(** Positions that increase strictly, above [prev] and below [n]. *)
Fixpoint increasing_between (prev n : Z) (ps : list Z) : Prop :=
  match ps with
  | [] => True
  | p :: rest => prev < p < n /\ increasing_between p n rest
  end.

(** The number of items of the sequences of a list. *)
Definition total_length {A : Type} (groups : list (list A)) : Z :=
  zsum (map (fun g => Z.of_nat (length g)) groups).

(** Two sequences of embeddings with the same numbers. *)
Definition same_values (a b : list embedding) : Prop :=
  Forall2 (Forall2 Qeq) a b.









(** The length of the longest sequence. *)
Definition longest {A : Type} (seqs : list (list A)) : nat :=
  fold_right Nat.max O (map (@length A) seqs).


(** [g] is a candidate grid for the budget [max_partition]. *)
Definition candidate (max_partition : Z) (g : grid) : Prop :=
  1 <= fst g /\ 1 <= snd g /\ fst g * snd g <= max_partition.

(** The interpreter computes the covering ratio [q] for the grid [g]. *)
Definition computes_ratio (py_sum : list Binary64.num -> Binary64.num)
    (w h side : Z) (g : grid) (q : Q) : Prop :=
  Tiling64.covering_ratio py_sum w h side g = Ok q.

(** Some candidate has a computed covering ratio above the threshold. *)
Definition some_good (py_sum : list Binary64.num -> Binary64.num)
    (w h side max_partition : Z) (tau : Q) : Prop :=
  exists g q, candidate max_partition g
              /\ computes_ratio py_sum w h side g q /\ (tau < q)%Q.

(** The selection rule of the tiling planner for the grid [g], on the
    covering ratios that the interpreter computes: with a good candidate,
    [g] is good, has the least number of tiles of the good candidates, and
    the greatest ratio of those with that number; without one, [g] has the
    greatest ratio of the candidates, and the least number of tiles of
    those with that ratio. *)
Definition selects (py_sum : list Binary64.num -> Binary64.num)
    (w h side max_partition : Z) (tau : Q) (g : grid) : Prop :=
  exists q, computes_ratio py_sum w h side g q
  /\ (some_good py_sum w h side max_partition tau ->
      (tau < q)%Q
      /\ forall g' q', candidate max_partition g' ->
           computes_ratio py_sum w h side g' q' -> (tau < q')%Q ->
           n_sub_images g <= n_sub_images g'
           /\ (n_sub_images g' = n_sub_images g -> (q' <= q)%Q))
  /\ (~ some_good py_sum w h side max_partition tau ->
      forall g' q', candidate max_partition g' ->
        computes_ratio py_sum w h side g' q' ->
        (q' <= q)%Q
        /\ ((q' == q)%Q -> n_sub_images g <= n_sub_images g')).

(** The ratio that [Tiling64.covering_ratio] returns, 0 if it raises. *)
Definition ratio64 (py_sum : list Binary64.num -> Binary64.num)
    (w h side : Z) (g : grid) : Q :=
  match Tiling64.covering_ratio py_sum w h side g with
  | Ok q => q
  | Raise _ => 0%Q
  end.

(** * Proofs *)

(** ** Binary64: the rounding *)

Section RoundingFacts.
Import Binary64.

Lemma Qcompare_spec' (x y : Q) :
  CompareSpec (x == y)%Q (x < y)%Q (y < x)%Q (x ?= y)%Q.
Proof.
  destruct (x ?= y)%Q eqn:E; constructor.
  - now apply Qeq_alt.
  - now apply Qlt_alt.
  - now apply Qgt_alt.
Qed.

Lemma floor_bounds (q : Q) :
  (inject_Z (Qfloor q) <= q < inject_Z (Qfloor q) + 1)%Q.
Proof.
  split; [apply Qfloor_le|].
  pose proof (Qlt_floor q) as H. rewrite inject_Z_plus in H. exact H.
Qed.

Lemma round_half_even_bounds (q : Q) :
  (inject_Z (round_half_even q) - (1 # 2) <= q
   <= inject_Z (round_half_even q) + (1 # 2))%Q.
Proof.
  unfold round_half_even. pose proof (floor_bounds q) as [Hlo Hhi].
  destruct (Qcompare_spec' (q - inject_Z (Qfloor q)) (1 # 2)) as [E|E|E].
  - destruct (Z.even (Qfloor q)); rewrite ?inject_Z_plus;
      change (inject_Z 1) with 1%Q; lra.
  - lra.
  - rewrite inject_Z_plus. change (inject_Z 1) with 1%Q. lra.
Qed.

Lemma round_half_even_Z (z : Z) : round_half_even (inject_Z z) = z.
Proof.
  unfold round_half_even. rewrite Qfloor_Z.
  destruct (Qcompare_spec' (inject_Z z - inject_Z z) (1 # 2)) as [E|E|E];
    [lra|reflexivity|lra].
Qed.

Lemma round_half_even_comp (q1 q2 : Q) :
  (q1 == q2)%Q -> round_half_even q1 = round_half_even q2.
Proof.
  intros E. unfold round_half_even. rewrite (Qfloor_comp _ _ E).
  assert (E' : (q1 - inject_Z (Qfloor q2) == q2 - inject_Z (Qfloor q2))%Q)
    by (rewrite E; reflexivity).
  now rewrite (Qcompare_comp _ _ E' (1 # 2) (1 # 2) (Qeq_refl _)).
Qed.

Lemma round_half_even_mono (q1 q2 : Q) :
  (q1 <= q2)%Q -> round_half_even q1 <= round_half_even q2.
Proof.
  intros Hle. pose proof (Qfloor_resp_le _ _ Hle) as Hf.
  pose proof (floor_bounds q1) as [Hlo1 Hhi1].
  pose proof (floor_bounds q2) as [Hlo2 Hhi2].
  unfold round_half_even.
  destruct (Z.eq_dec (Qfloor q1) (Qfloor q2)) as [E|NE].
  - rewrite E in *.
    destruct (Qcompare_spec' (q1 - inject_Z (Qfloor q2)) (1 # 2)),
             (Qcompare_spec' (q2 - inject_Z (Qfloor q2)) (1 # 2));
      try lia; try lra; destruct (Z.even (Qfloor q2)); lia.
  - assert (Qfloor q1 + 1 <= Qfloor q2) by lia.
    destruct (q1 - inject_Z (Qfloor q1) ?= 1 # 2)%Q,
             (q2 - inject_Z (Qfloor q2) ?= 1 # 2)%Q;
      try lia; destruct (Z.even (Qfloor q1)), (Z.even (Qfloor q2)); lia.
Qed.

Lemma two_neq_0 : ~ (2 == 0)%Q.
Proof. intros E. discriminate E. Qed.

Lemma pow2_pos (e : Z) : (0 < pow2 e)%Q.
Proof. apply Qpower_0_lt. reflexivity. Qed.

Lemma pow2_plus (a b : Z) : (pow2 (a + b) == pow2 a * pow2 b)%Q.
Proof. apply Qpower_plus, two_neq_0. Qed.

Lemma pow2_le (a b : Z) : a <= b -> (pow2 a <= pow2 b)%Q.
Proof. intros H. apply Qpower_le_compat_l; [exact H|]. discriminate. Qed.

Lemma pow2_lt (a b : Z) : a < b -> (pow2 a < pow2 b)%Q.
Proof. intros H. apply Qpower_lt_compat_l; [exact H|reflexivity]. Qed.

Lemma pow2_lt_inv (a b : Z) : (pow2 a < pow2 b)%Q -> a < b.
Proof. intros H. apply (Qpower_lt_compat_l_inv 2); [exact H|reflexivity]. Qed.

Lemma pow2_Z (a : Z) : 0 <= a -> (pow2 a == inject_Z (2 ^ a))%Q.
Proof. intros H. unfold pow2. now rewrite Zpower_Qpower. Qed.

Lemma pow2_succ (a : Z) : (pow2 (a + 1) == 2 * pow2 a)%Q.
Proof. rewrite pow2_plus. change (pow2 1) with 2%Q. ring. Qed.

Lemma pow2_pred (a : Z) : (pow2 (a - 1) == pow2 a / 2)%Q.
Proof.
  replace a with ((a - 1) + 1) at 2 by lia. rewrite pow2_succ. field.
Qed.

(** [ilog2 q] is the exponent of the binade of [q]. *)
Lemma ilog2_spec (q : Q) :
  (0 < q)%Q -> (pow2 (ilog2 q) <= q < pow2 (ilog2 q + 1))%Q.
Proof.
  intros Hq. destruct q as [n d]. unfold ilog2. cbn [Qnum Qden].
  assert (Hn : 0 < n).
  { unfold Qlt in Hq. simpl in Hq. lia. }
  set (a := Z.log2 n). set (b := Z.log2 (Z.pos d)).
  pose proof (Z.log2_nonneg n) as Ha. fold a in Ha.
  pose proof (Z.log2_nonneg (Z.pos d)) as Hb. fold b in Hb.
  destruct (Z.log2_spec n Hn) as [Hn1 Hn2]. fold a in Hn1, Hn2.
  destruct (Z.log2_spec (Z.pos d) eq_refl) as [Hd1 Hd2]. fold b in Hd1, Hd2.
  assert (Eq : (n # d == inject_Z n / inject_Z (Z.pos d))%Q)
    by apply Qmake_Qdiv.
  assert (Hdq : (0 < inject_Z (Z.pos d))%Q) by reflexivity.
  assert (Ea : (pow2 a == inject_Z (2 ^ a))%Q) by now apply pow2_Z.
  assert (Eb : (pow2 b == inject_Z (2 ^ b))%Q) by now apply pow2_Z.
  assert (Ek : (pow2 (a - b) == pow2 a / pow2 b)%Q)
    by apply Qpower_minus, two_neq_0.
  pose proof (pow2_pos a) as Pa. pose proof (pow2_pos b) as Pb.
  assert (Hna : (pow2 a <= inject_Z n)%Q).
  { rewrite Ea. now rewrite <- Zle_Qle. }
  assert (Hna' : (inject_Z n < 2 * pow2 a)%Q).
  { rewrite Ea. change 2%Q with (inject_Z 2). rewrite <- inject_Z_mult.
    rewrite <- Zlt_Qlt. replace (Z.succ a) with (a + 1) in Hn2 by lia.
    rewrite Z.pow_add_r in Hn2 by lia. lia. }
  assert (Hdb : (pow2 b <= inject_Z (Z.pos d))%Q).
  { rewrite Eb. now rewrite <- Zle_Qle. }
  assert (Hdb' : (inject_Z (Z.pos d) < 2 * pow2 b)%Q).
  { rewrite Eb. change 2%Q with (inject_Z 2). rewrite <- inject_Z_mult.
    rewrite <- Zlt_Qlt. replace (Z.succ b) with (b + 1) in Hd2 by lia.
    rewrite Z.pow_add_r in Hd2 by lia. lia. }
  set (N := inject_Z n) in *. set (D := inject_Z (Z.pos d)) in *.
  assert (Hlow : (pow2 (a - b) / 2 < N / D)%Q).
  { rewrite Ek. apply Qlt_shift_div_l; [exact Hdq|].
    assert (E : (pow2 a / pow2 b / 2 * D == pow2 a * (D / (2 * pow2 b)))%Q)
      by (field; lra).
    rewrite E.
    assert (D / (2 * pow2 b) < 1)%Q.
    { apply Qlt_shift_div_r; lra. }
    nra. }
  assert (Hhigh : (N / D < 2 * pow2 (a - b))%Q).
  { rewrite Ek. apply Qlt_shift_div_r; [exact Hdq|].
    assert (E : (2 * (pow2 a / pow2 b) * D == 2 * pow2 a * (D / pow2 b))%Q)
      by (field; lra).
    rewrite E.
    assert (1 <= D / pow2 b)%Q.
    { apply Qle_shift_div_l; lra. }
    nra. }
  destruct (Qle_bool (pow2 (a - b)) (n # d)) eqn:T.
  - apply Qle_bool_iff in T. split; [exact T|].
    rewrite pow2_succ, Eq. exact Hhigh.
  - assert (T' : (n # d < pow2 (a - b))%Q).
    { apply Qnot_le_lt. intros H. apply Qle_bool_iff in H. congruence. }
    replace (a - b - 1 + 1) with (a - b) by lia.
    split; [|exact T'].
    rewrite pow2_pred, Eq. apply Qlt_le_weak. exact Hlow.
Qed.

Lemma ilog2_unique (q : Q) (e : Z) :
  (pow2 e <= q < pow2 (e + 1))%Q -> ilog2 q = e.
Proof.
  intros [Hlo Hhi].
  assert (Hq : (0 < q)%Q) by (pose proof (pow2_pos e); lra).
  destruct (ilog2_spec q Hq) as [Hlo' Hhi'].
  assert (e < ilog2 q + 1) by (apply pow2_lt_inv; lra).
  assert (ilog2 q < e + 1) by (apply pow2_lt_inv; lra).
  lia.
Qed.

Lemma ilog2_comp (q1 q2 : Q) :
  (0 < q1)%Q -> (q1 == q2)%Q -> ilog2 q1 = ilog2 q2.
Proof.
  intros Hq E. apply ilog2_unique. rewrite E.
  apply ilog2_spec. now rewrite <- E.
Qed.

Lemma ilog2_mono (q1 q2 : Q) :
  (0 < q1)%Q -> (q1 <= q2)%Q -> ilog2 q1 <= ilog2 q2.
Proof.
  intros Hq Hle.
  destruct (ilog2_spec q1 Hq) as [Hlo1 _].
  destruct (ilog2_spec q2) as [_ Hhi2]; [lra|].
  assert (ilog2 q1 < ilog2 q2 + 1) by (apply pow2_lt_inv; lra).
  lia.
Qed.

(** ** The rounding of a positive number *)

Lemma significand_bounds (q : Q) :
  (0 < q)%Q ->
  (pow2 52 <= q / pow2 (ilog2 q - 52) < pow2 53)%Q.
Proof.
  intros Hq. destruct (ilog2_spec q Hq) as [Hlo Hhi].
  pose proof (pow2_pos (ilog2 q - 52)) as Pe.
  assert (E1 : (pow2 (ilog2 q) == pow2 52 * pow2 (ilog2 q - 52))%Q).
  { rewrite <- pow2_plus. now replace (52 + (ilog2 q - 52)) with (ilog2 q) by lia. }
  assert (E2 : (pow2 (ilog2 q + 1) == pow2 53 * pow2 (ilog2 q - 52))%Q).
  { rewrite <- pow2_plus.
    now replace (53 + (ilog2 q - 52)) with (ilog2 q + 1) by lia. }
  split.
  - apply Qle_shift_div_l; [exact Pe|]. now rewrite <- E1.
  - apply Qlt_shift_div_r; [exact Pe|]. now rewrite <- E2.
Qed.

Lemma round_pos_eq (q : Q) :
  (round_pos q
   == inject_Z (round_half_even (q / pow2 (ilog2 q - 52)))
      * pow2 (ilog2 q - 52))%Q.
Proof. unfold round_pos. apply Qred_correct. Qed.

Lemma round_pos_comp (q1 q2 : Q) :
  (0 < q1)%Q -> (q1 == q2)%Q -> round_pos q1 = round_pos q2.
Proof.
  intros Hq E. unfold round_pos. rewrite (ilog2_comp q1 q2 Hq E).
  rewrite (round_half_even_comp (q1 / pow2 (ilog2 q2 - 52))
             (q2 / pow2 (ilog2 q2 - 52))); [reflexivity|now rewrite E].
Qed.

Lemma round_pos_mantissa (q : Q) :
  (0 < q)%Q ->
  2 ^ 52 <= round_half_even (q / pow2 (ilog2 q - 52)) <= 2 ^ 53.
Proof.
  intros Hq. destruct (significand_bounds q Hq) as [Hlo Hhi].
  rewrite (pow2_Z 52) in Hlo by lia. rewrite (pow2_Z 53) in Hhi by lia.
  split.
  - rewrite <- (round_half_even_Z (2 ^ 52)). now apply round_half_even_mono.
  - rewrite <- (round_half_even_Z (2 ^ 53)). apply round_half_even_mono.
    now apply Qlt_le_weak.
Qed.

(** The relative error of a rounding is at most [2 ^ -53]. *)
Lemma round_pos_error (q : Q) :
  (0 < q)%Q ->
  (q * (1 - ulp_half) <= round_pos q <= q * (1 + ulp_half))%Q.
Proof.
  intros Hq. rewrite round_pos_eq.
  destruct (significand_bounds q Hq) as [Hlo _].
  set (e := ilog2 q - 52) in *. set (t := (q / pow2 e)%Q) in *.
  pose proof (pow2_pos e) as Pe.
  pose proof (round_half_even_bounds t) as [Hm1 Hm2].
  set (m := inject_Z (round_half_even t)) in *.
  assert (Eq : (q == t * pow2 e)%Q) by (unfold t; field; lra).
  assert (Hu : (ulp_half * pow2 52 == 1 # 2)%Q) by reflexivity.
  assert (Hu0 : (0 < ulp_half)%Q) by reflexivity.
  assert (Ht : ((1 # 2) <= t * ulp_half)%Q) by nra.
  rewrite Eq. split.
  - assert (E : (t * pow2 e * (1 - ulp_half)
                 == (t - t * ulp_half) * pow2 e)%Q) by ring.
    rewrite E. apply Qmult_le_compat_r; lra.
  - assert (E : (t * pow2 e * (1 + ulp_half)
                 == (t + t * ulp_half) * pow2 e)%Q) by ring.
    rewrite E. apply Qmult_le_compat_r; lra.
Qed.

Lemma round_pos_pos (q : Q) : (0 < q)%Q -> (0 < round_pos q)%Q.
Proof.
  intros Hq. rewrite round_pos_eq.
  pose proof (round_pos_mantissa q Hq) as [Hm _].
  pose proof (pow2_pos (ilog2 q - 52)).
  assert (0 < inject_Z (round_half_even (q / pow2 (ilog2 q - 52))))%Q.
  { change 0%Q with (inject_Z 0). rewrite <- Zlt_Qlt. lia. }
  nra.
Qed.

Lemma round_pos_mono (q1 q2 : Q) :
  (0 < q1)%Q -> (q1 <= q2)%Q -> (round_pos q1 <= round_pos q2)%Q.
Proof.
  intros Hq Hle. assert (Hq2 : (0 < q2)%Q) by lra.
  rewrite !round_pos_eq.
  pose proof (ilog2_mono q1 q2 Hq Hle) as He.
  pose proof (round_pos_mantissa q1 Hq) as [_ Hm1].
  pose proof (round_pos_mantissa q2 Hq2) as [Hm2 _].
  set (e1 := ilog2 q1 - 52) in *. set (e2 := ilog2 q2 - 52) in *.
  pose proof (pow2_pos e1) as P1. pose proof (pow2_pos e2) as P2.
  destruct (Z.eq_dec (ilog2 q1) (ilog2 q2)) as [E|NE].
  - assert (E' : e1 = e2) by (unfold e1, e2; lia). rewrite E'.
    apply Qmult_le_compat_r; [|lra].
    rewrite <- Zle_Qle. apply round_half_even_mono.
    apply Qmult_le_compat_r; [exact Hle|].
    apply Qlt_le_weak, Qinv_lt_0_compat. exact P2.
  - assert (Hlt : e1 + 1 <= e2) by (unfold e1, e2; lia).
    apply Qle_trans with (pow2 53 * pow2 e1)%Q.
    + apply Qmult_le_compat_r; [|lra].
      rewrite (pow2_Z 53) by lia. now rewrite <- Zle_Qle.
    + apply Qle_trans with (pow2 52 * pow2 e2)%Q.
      * rewrite <- !pow2_plus. apply pow2_le. lia.
      * apply Qmult_le_compat_r; [|lra].
        rewrite (pow2_Z 52) by lia. now rewrite <- Zle_Qle.
Qed.

(** The integers up to [2 ^ 53] are binary64 numbers. *)
Lemma round_pos_Z (z : Z) :
  1 <= z <= 2 ^ 53 -> (round_pos (inject_Z z) == inject_Z z)%Q.
Proof.
  intros [Hlo Hhi].
  destruct (Z.eq_dec z (2 ^ 53)) as [->|NE]; [reflexivity|].
  assert (Hq : (0 < inject_Z z)%Q).
  { change 0%Q with (inject_Z 0). rewrite <- Zlt_Qlt. lia. }
  rewrite round_pos_eq.
  destruct (ilog2_spec _ Hq) as [Hl _].
  assert (He : ilog2 (inject_Z z) < 53).
  { apply pow2_lt_inv. eapply Qle_lt_trans; [exact Hl|].
    rewrite (pow2_Z 53) by lia. rewrite <- Zlt_Qlt. lia. }
  set (e := ilog2 (inject_Z z) - 52) in *.
  assert (Hinv : (pow2 e * pow2 (- e) == 1)%Q).
  { rewrite <- pow2_plus. now replace (e + - e) with 0 by lia. }
  pose proof (pow2_pos e) as Pe.
  assert (Et : (inject_Z z / pow2 e == inject_Z (z * 2 ^ (- e)))%Q).
  { rewrite inject_Z_mult, <- pow2_Z by lia.
    apply Qmult_inj_r with (pow2 e); [lra|].
    assert (E : (inject_Z z / pow2 e * pow2 e == inject_Z z)%Q)
      by (field; lra).
    rewrite E. rewrite <- Qmult_assoc, (Qmult_comm (pow2 (- e))), Hinv. ring. }
  rewrite (round_half_even_comp _ _ Et), round_half_even_Z.
  rewrite inject_Z_mult, <- pow2_Z by lia.
  rewrite <- Qmult_assoc, (Qmult_comm (pow2 (- e))), Hinv. ring.
Qed.

(** ** The rounding of any number *)

Lemma round_0 (q : Q) : (q == 0)%Q -> round q = 0%Q.
Proof. intros E. unfold round. apply Qeq_alt in E. now rewrite E. Qed.

Lemma round_of_pos (q : Q) : (0 < q)%Q -> round q = round_pos q.
Proof. intros H. unfold round. apply Qgt_alt in H. now rewrite H. Qed.

Lemma round_comp (q1 q2 : Q) : (q1 == q2)%Q -> round q1 = round q2.
Proof.
  intros E. unfold round.
  rewrite (Qcompare_comp _ _ E 0 0 (Qeq_refl _))%Q.
  destruct (Qcompare_spec' q2 0) as [H|H|H]; [reflexivity| |].
  - f_equal. apply round_pos_comp; [rewrite E; lra|now rewrite E].
  - apply round_pos_comp; [rewrite E; lra|exact E].
Qed.

Lemma round_nonneg (q : Q) : (0 <= q)%Q -> (0 <= round q)%Q.
Proof.
  intros H. destruct (Qlt_le_dec 0 q) as [Hpos|Hz].
  - rewrite round_of_pos by exact Hpos.
    apply Qlt_le_weak. now apply round_pos_pos.
  - rewrite round_0 by lra. lra.
Qed.

(** Rounding is monotone. *)
Lemma round_mono (q1 q2 : Q) :
  (0 <= q1)%Q -> (q1 <= q2)%Q -> (round q1 <= round q2)%Q.
Proof.
  intros H1 Hle. destruct (Qlt_le_dec 0 q1) as [Hpos|Hz].
  - rewrite !round_of_pos by lra. now apply round_pos_mono.
  - rewrite (round_0 q1) by lra. apply round_nonneg. lra.
Qed.

(** The rounding agrees with the arithmetic of the machine on the numbers
    met in the examples of this file: the quotients 61 / 448 and 333 / 500,
    their products by the side, the sum of two scaled areas and the
    quotient by the area of the image. *)
Lemma round_is_machine_arithmetic :
  let x := round (61 # 448) in
  let y := round (333 # 500) in
  let a := round (384 * round (y * 384)) in
  of_machine (61 / 448)%float = Some x
  /\ of_machine (61 / 448 * 448)%float = Some (round (x * 448))
  /\ of_machine (333 / 500)%float = Some y
  /\ of_machine (384 * (333 / 500 * 384))%float = Some a
  /\ of_machine (384 * (333 / 500 * 384) + 384 * (333 / 500 * 384))%float
     = Some (round (a + a))
  /\ of_machine ((384 * (333 / 500 * 384) + 384 * (333 / 500 * 384))
                 / 1500000)%float
     = Some (round (round (a + a) / 1500000)).
Proof. vm_compute. repeat split. Qed.

Lemma round_Z (z : Z) :
  0 <= z <= 2 ^ 53 -> (round (inject_Z z) == inject_Z z)%Q.
Proof.
  intros [Hlo Hhi]. destruct (Z.eq_dec z 0) as [->|NE]; [reflexivity|].
  assert (Hq : (0 < inject_Z z)%Q).
  { change 0%Q with (inject_Z 0). rewrite <- Zlt_Qlt. lia. }
  rewrite round_of_pos by exact Hq. apply round_pos_Z. lia.
Qed.

(** The relative error of a rounding is at most [2 ^ -53]. *)
Lemma round_error (q : Q) :
  (0 <= q)%Q -> (q * (1 - ulp_half) <= round q <= q * (1 + ulp_half))%Q.
Proof.
  intros H. destruct (Qlt_le_dec 0 q) as [Hpos|Hz].
  - rewrite round_of_pos by exact Hpos. now apply round_pos_error.
  - assert (E : (q == 0)%Q) by lra. rewrite (round_0 q E), E. lra.
Qed.
End RoundingFacts.

(** ** Ranges and sums *)

Lemma in_range2 (lo hi k : Z) : In k (range2 lo hi) <-> lo <= k < hi.
Proof.
  unfold range2. rewrite in_map_iff. split.
  - intros [n [<- Hn]]. apply in_seq in Hn. lia.
  - intros Hk. exists (Z.to_nat (k - lo)). split; [lia|].
    apply in_seq. lia.
Qed.

Lemma in_range (n k : Z) : In k (range n) <-> 0 <= k < n.
Proof. apply in_range2. Qed.

Lemma range2_snoc (lo hi : Z) :
  lo <= hi -> range2 lo (hi + 1) = range2 lo hi ++ [hi].
Proof.
  intros Hle. unfold range2.
  replace (Z.to_nat (hi + 1 - lo)) with (Z.to_nat (hi - lo) + 1)%nat by lia.
  rewrite seq_app, map_app. simpl. do 3 f_equal. lia.
Qed.

Lemma range_snoc (n : Z) : 0 <= n -> range (n + 1) = range n ++ [n].
Proof. apply range2_snoc. Qed.

Lemma range_nonpos (n : Z) : n <= 0 -> range n = [].
Proof.
  intros Hn. unfold range, range2.
  replace (Z.to_nat (n - 0)) with O by lia. reflexivity.
Qed.

Lemma length_range2 (lo hi : Z) : length (range2 lo hi) = Z.to_nat (hi - lo).
Proof. unfold range2. now rewrite length_map, length_seq. Qed.

Lemma length_range (n : Z) : length (range n) = Z.to_nat n.
Proof. unfold range. rewrite length_range2. f_equal. lia. Qed.

(** Induction on the upper bound of a range. *)
Lemma range_ind (Q : Z -> list Z -> Prop) :
  Q 0 [] ->
  (forall n, 0 <= n -> Q n (range n) -> Q (n + 1) (range n ++ [n])) ->
  forall n, 0 <= n -> Q n (range n).
Proof.
  intros H0 Hstep n Hn. pattern n. apply natlike_ind; [exact H0| |exact Hn].
  intros x Hx IH. unfold Z.succ. rewrite range_snoc by assumption.
  now apply Hstep.
Qed.

Lemma zsum_app (l1 l2 : list Z) : zsum (l1 ++ l2) = zsum l1 + zsum l2.
Proof. induction l1 as [|x l1 IH]; simpl; [reflexivity|]. rewrite IH. lia. Qed.

Lemma zsum_flat_map {A : Type} (f : A -> list Z) (l : list A) :
  zsum (flat_map f l) = zsum (map (fun a => zsum (f a)) l).
Proof.
  induction l as [|a l IH]; simpl; [reflexivity|].
  now rewrite zsum_app, IH.
Qed.

Lemma zsum_map_scale {A : Type} (f : A -> Z) (k : Z) (l : list A) :
  zsum (map (fun a => f a * k) l) = zsum (map f l) * k.
Proof. induction l as [|a l IH]; simpl; [reflexivity|]. rewrite IH. lia. Qed.

Lemma zsum_map_ext {A : Type} (f g : A -> Z) (l : list A) :
  (forall a, In a l -> f a = g a) -> zsum (map f l) = zsum (map g l).
Proof.
  intros Hfg. f_equal. apply map_ext_in. exact Hfg.
Qed.

(** ** Bands: the rows, or the columns, of a grid *)

Lemma band_quot (n total : Z) :
  1 <= n -> 0 <= total ->
  0 <= total / n /\ n * (total / n) <= total.
Proof.
  intros Hn Ht. split.
  - apply Z.div_pos; lia.
  - apply Z.mul_div_le. lia.
Qed.

Lemma band_bounds (n total k : Z) :
  1 <= n -> 0 <= total -> 0 <= k < n ->
  0 <= band_lo n total k <= band_hi n total k /\ band_hi n total k <= total.
Proof.
  intros Hn Ht Hk. destruct (band_quot n total Hn Ht) as [Hq Hle].
  unfold band_lo, band_hi. destruct (Z.eqb_spec k (n - 1)); nia.
Qed.

Lemma band_ordered (n total k k' : Z) :
  1 <= n -> 0 <= total -> 0 <= k -> k < k' -> k' < n ->
  band_hi n total k <= band_lo n total k'.
Proof.
  intros Hn Ht Hk Hlt Hk'. destruct (band_quot n total Hn Ht) as [Hq Hle].
  unfold band_lo, band_hi. destruct (Z.eqb_spec k (n - 1)); nia.
Qed.

Lemma band_cover (n total x : Z) :
  1 <= n -> 0 <= x < total ->
  exists k, 0 <= k < n /\ band_lo n total k <= x < band_hi n total k.
Proof.
  intros Hn Hx. destruct (band_quot n total Hn ltac:(lia)) as [Hq Hle].
  destruct (Z_lt_le_dec x ((n - 1) * (total / n))) as [Hlt|Hge].
  - assert (Hpos : 0 < total / n) by nia.
    exists (x / (total / n)).
    pose proof (Z.mul_div_le x (total / n) Hpos).
    pose proof (Z.mul_succ_div_gt x (total / n) Hpos).
    assert (x / (total / n) < n - 1).
    { apply Z.div_lt_upper_bound; lia. }
    assert (0 <= x / (total / n)) by (apply Z.div_pos; lia).
    unfold band_lo, band_hi.
    destruct (Z.eqb_spec (x / (total / n)) (n - 1)); lia.
  - exists (n - 1). unfold band_lo, band_hi. rewrite Z.eqb_refl. lia.
Qed.

Lemma band_widths_sum (n total : Z) :
  1 <= n ->
  zsum (map (fun k => band_hi n total k - band_lo n total k) (range n)) = total.
Proof.
  intros Hn.
  assert (Hr : range n = range (n - 1) ++ [n - 1]).
  { rewrite <- range_snoc by lia. f_equal. lia. }
  rewrite Hr, map_app, zsum_app. simpl.
  rewrite zsum_map_ext with (g := fun _ => 1 * (total / n)).
  - rewrite zsum_map_scale.
    assert (Hones : forall m, 0 <= m ->
              zsum (map (fun _ : Z => 1) (range m)) = m).
    { intros m Hm. pattern m, (range m). apply range_ind; [reflexivity| |exact Hm].
      intros k Hk IH. rewrite map_app, zsum_app, IH. simpl. lia. }
    rewrite Hones by lia. unfold band_lo, band_hi. rewrite Z.eqb_refl. lia.
  - intros k Hk. apply in_range in Hk. unfold band_lo, band_hi.
    destruct (Z.eqb_spec k (n - 1)); lia.
Qed.

(** ** [_partition] *)

Lemma FOP_app {A : Type} (R : A -> A -> Prop) (l1 l2 : list A) :
  ForallOrdPairs R l1 -> ForallOrdPairs R l2 ->
  (forall a b, In a l1 -> In b l2 -> R a b) ->
  ForallOrdPairs R (l1 ++ l2).
Proof.
  intros H1 H2 Hx. induction H1 as [|a l Ha Hl IH]; simpl; [exact H2|].
  apply FOP_cons.
  - apply Forall_app. split; [exact Ha|].
    apply Forall_forall. intros b Hb. apply Hx; [now left|exact Hb].
  - apply IH. intros a' b Ha' Hb. apply Hx; [now right|exact Hb].
Qed.

Section ListFacts.
Context {A B C : Type}.

Lemma FOP_map (R : B -> B -> Prop) (f : A -> B) (l : list A) :
ForallOrdPairs (fun a a' => R (f a) (f a')) l ->
ForallOrdPairs R (map f l).
Proof.
induction 1 as [|a l Ha Hl IH]; simpl; [apply FOP_nil|].
apply FOP_cons; [|exact IH].
apply Forall_map. exact Ha.
Qed.

Lemma FOP_flat_map (R : B -> B -> Prop) (f : A -> list B) (l : list A) :
(forall a, In a l -> ForallOrdPairs R (f a)) ->
ForallOrdPairs
(fun a a' => forall b b', In b (f a) -> In b' (f a') -> R b b') l ->
ForallOrdPairs R (flat_map f l).
Proof.
intros Hin Hl. induction Hl as [|a l Ha Hl IH]; simpl; [apply FOP_nil|].
apply FOP_app.
- apply Hin. now left.
- apply IH. intros a' Ha'. apply Hin. now right.
- intros b b' Hb Hb'. apply in_flat_map in Hb' as [a' [Ha' Hb']].
rewrite Forall_forall in Ha. exact (Ha a' Ha' b b' Hb Hb').
Qed.

Lemma nth_error_flat_map_map (f : A -> C -> B) (K : list A) (L : list C)
(i j : nat) (a : A) (c : C) :
nth_error K i = Some a -> nth_error L j = Some c ->
nth_error (flat_map (fun a => map (f a) L) K) (i * length L + j)
= Some (f a c).
Proof.
revert i. induction K as [|a0 K IH]; intros i Hi Hj.
- destruct i; discriminate.
- destruct i as [|i]; simpl in *.
+ injection Hi as ->. rewrite nth_error_app1.
* now apply map_nth_error.
* rewrite length_map. apply nth_error_Some. congruence.
+ rewrite nth_error_app2 by (rewrite length_map; lia).
rewrite length_map.
replace (length L + i * length L + j - length L)%nat
with (i * length L + j)%nat by lia.
now apply IH.
Qed.

Lemma length_flat_map_map (f : A -> C -> B) (K : list A) (L : list C) :
length (flat_map (fun a => map (f a) L) K) = (length K * length L)%nat.
Proof.
induction K as [|a K IH]; simpl; [reflexivity|].
now rewrite length_app, length_map, IH.
Qed.
End ListFacts.

Lemma FOP_range_lt (n : Z) :
  ForallOrdPairs (fun k k' => 0 <= k /\ k < k' /\ k' < n) (range n).
Proof.
  destruct (Z_le_gt_dec 0 n) as [Hn|Hn].
  - pattern n, (range n). apply range_ind; [apply FOP_nil| |exact Hn].
    intros m Hm IH. apply FOP_app.
    + clear -IH. induction IH as [|a l Ha Hl IH']; [apply FOP_nil|].
      apply FOP_cons; [|exact IH'].
      eapply Forall_impl; [|exact Ha]. simpl. intros; lia.
    + apply FOP_cons; [constructor|apply FOP_nil].
    + intros a b Ha Hb. apply in_range in Ha. destruct Hb as [<-|[]]. lia.
  - rewrite range_nonpos by lia. apply FOP_nil.
Qed.

Lemma nth_error_range (n : Z) (k : nat) :
  (k < Z.to_nat n)%nat -> nth_error (range n) k = Some (Z.of_nat k).
Proof.
  intros Hk. unfold range, range2. rewrite nth_error_map, nth_error_seq.
  replace (Z.to_nat (n - 0)) with (Z.to_nat n) by lia.
  destruct (Nat.ltb_spec k (Z.to_nat n)); [reflexivity|lia].
Qed.

(** The box of row [row] and column [col] is the product of two bands. *)
Lemma partition_bands (w h : Z) (g : grid) :
  Tiling._partition w h g =
  flat_map (fun row =>
    map (fun col =>
      (band_lo (snd g) w col, band_lo (fst g) h row,
       band_hi (snd g) w col, band_hi (fst g) h row))
      (range (snd g))) (range (fst g)).
Proof. reflexivity. Qed.

Section PartitionFacts.
Variables w h r c : Z.
Hypothesis Hw : 1 <= w.
Hypothesis Hh : 1 <= h.
Hypothesis Hr : 1 <= r.
Hypothesis Hc : 1 <= c.

Lemma partition_length :
Z.of_nat (length (Tiling._partition w h (r, c))) = r * c.
Proof.
rewrite partition_bands. simpl fst; simpl snd.
rewrite length_flat_map_map, !length_range. nia.
Qed.

Lemma partition_no_overlap :
ForallOrdPairs (fun b1 b2 => ~ overlap b1 b2)
(Tiling._partition w h (r, c)).
Proof.
rewrite partition_bands. simpl fst; simpl snd.
apply FOP_flat_map.
- intros row Hrow. apply FOP_map.
eapply (ForallOrdPairs_ind (fun l => ForallOrdPairs _ l));
[apply FOP_nil| |apply (FOP_range_lt c)].
intros a l Ha _ IH. apply FOP_cons; [|exact IH].
eapply Forall_impl; [|exact Ha]. simpl.
intros a' (H0 & Hlt & Hlt') (x & y & [Hx _] & [Hx' _]).
unfold box_left, box_right in *. simpl in *.
pose proof (band_ordered c w a a'). lia.
- eapply (ForallOrdPairs_ind (fun l => ForallOrdPairs _ l));
[apply FOP_nil| |apply (FOP_range_lt r)].
intros a l Ha _ IH. apply FOP_cons; [|exact IH].
eapply Forall_impl; [|exact Ha]. simpl.
intros a' (H0 & Hlt & Hlt') b b' Hb Hb'.
apply in_map_iff in Hb as [col [<- _]].
apply in_map_iff in Hb' as [col' [<- _]].
intros (x & y & [_ Hy] & [_ Hy']).
unfold box_upper, box_lower in *. simpl in *.
pose proof (band_ordered r h a a'). lia.
Qed.

Lemma partition_area_sum :
zsum (map box_area (Tiling._partition w h (r, c))) = w * h.
Proof.
rewrite partition_bands. simpl fst; simpl snd.
rewrite flat_map_concat_map, concat_map, map_map.
rewrite <- flat_map_concat_map, zsum_flat_map.
rewrite zsum_map_ext with
(g := fun row => (band_hi r h row - band_lo r h row) * w).
- rewrite zsum_map_scale, band_widths_sum by lia. lia.
- intros row _. rewrite map_map.
rewrite zsum_map_ext with
(g := fun col => (band_hi c w col - band_lo c w col)
 * (band_hi r h row - band_lo r h row))
by reflexivity.
rewrite zsum_map_scale, band_widths_sum by lia. lia.
Qed.

Lemma partition_covers (x y : Z) :
0 <= x < w -> 0 <= y < h ->
exists b, In b (Tiling._partition w h (r, c)) /\ in_box x y b.
Proof.
intros Hx Hy. rewrite partition_bands. simpl fst; simpl snd.
destruct (band_cover c w x Hc Hx) as (col & Hcol & Hxb).
destruct (band_cover r h y Hr Hy) as (row & Hrow & Hyb).
eexists. split.
- apply in_flat_map. exists row. split; [now apply in_range|].
apply in_map_iff. exists col. split; [reflexivity|now apply in_range].
- unfold in_box, box_left, box_right, box_upper, box_lower. simpl. lia.
Qed.

Lemma partition_nth (row col : Z) :
0 <= row < r -> 0 <= col < c ->
nth_error (Tiling._partition w h (r, c)) (Z.to_nat (row * c + col))
= Some (band_lo c w col, band_lo r h row,
band_hi c w col, band_hi r h row).
Proof.
intros Hrow Hcol. rewrite partition_bands. simpl fst; simpl snd.
replace (Z.to_nat (row * c + col))
with (Z.to_nat row * length (range c) + Z.to_nat col)%nat
by (rewrite length_range; nia).
rewrite (nth_error_flat_map_map _ _ _ _ _ (Z.of_nat (Z.to_nat row))
 (Z.of_nat (Z.to_nat col)))
by (apply nth_error_range; lia).
now rewrite !Z2Nat.id by lia.
Qed.
End PartitionFacts.

(** C5. For an image of [w >= 1] by [h >= 1] pixels and a grid of [r >= 1]
    rows and [c >= 1] columns, the [r * c] boxes of [_partition] tile the
    image exactly: no two of them share a pixel, their areas sum to [w * h],
    every pixel of the image is in one of them, and the box of row [row] and
    column [col] starts at [(col * (w // c), row * (h // r))] and ends at
    [right = w] in the last column and at [lower = h] in the last row, so
    that the last row and column take the remainder of the division. *)
Theorem partition_tiles_image (w h r c : Z) :
  1 <= w -> 1 <= h -> 1 <= r -> 1 <= c ->
  let p := Tiling._partition w h (r, c) in
  Z.of_nat (length p) = r * c
  /\ ForallOrdPairs (fun b1 b2 => ~ overlap b1 b2) p
  /\ zsum (map box_area p) = w * h
  /\ (forall x y, 0 <= x < w -> 0 <= y < h ->
        exists b, In b p /\ in_box x y b)
  /\ (forall row col, 0 <= row < r -> 0 <= col < c ->
        exists b, nth_error p (Z.to_nat (row * c + col)) = Some b
          /\ box_left b = col * (w / c) /\ box_upper b = row * (h / r)
          /\ box_right b = (if col =? c - 1 then w else (col + 1) * (w / c))
          /\ box_lower b = (if row =? r - 1 then h else (row + 1) * (h / r))
          /\ box_right b - box_left b >= w / c
          /\ box_lower b - box_upper b >= h / r).
Proof.
  intros Hw Hh Hr Hc p. subst p.
  split; [now apply partition_length|].
  split; [now apply partition_no_overlap|].
  split; [now apply partition_area_sum|].
  split; [intros x y; now apply partition_covers|].
  intros row col Hrow Hcol. eexists.
  split; [now apply partition_nth|].
  unfold box_left, box_upper, box_right, box_lower, band_lo, band_hi.
  cbn [fst snd]. repeat split.
  - destruct (band_quot c w Hc ltac:(lia)).
    destruct (Z.eqb_spec col (c - 1)); nia.
  - destruct (band_quot r h Hr ltac:(lia)).
    destruct (Z.eqb_spec row (r - 1)); nia.
Qed.

Lemma partition_tiles_image_witness :
  let p := Tiling._partition 5 5 (2, 3) in
  Z.of_nat (length p) = 2 * 3
  /\ ForallOrdPairs (fun b1 b2 => ~ overlap b1 b2) p
  /\ zsum (map box_area p) = 5 * 5
  /\ (forall x y, 0 <= x < 5 -> 0 <= y < 5 ->
        exists b, In b p /\ in_box x y b)
  /\ (forall row col, 0 <= row < 2 -> 0 <= col < 3 ->
        exists b, nth_error p (Z.to_nat (row * 3 + col)) = Some b
          /\ box_left b = col * (5 / 3) /\ box_upper b = row * (5 / 2)
          /\ box_right b = (if col =? 3 - 1 then 5 else (col + 1) * (5 / 3))
          /\ box_lower b = (if row =? 2 - 1 then 5 else (row + 1) * (5 / 2))
          /\ box_right b - box_left b >= 5 / 3
          /\ box_lower b - box_upper b >= 5 / 2).
Proof. apply (partition_tiles_image 5 5 2 3); lia. Defined.

(** ** [_covering_area] and the covering ratio *)

Lemma Qsum_fold (l : list Q) (acc : Q) :
  (fold_left Qplus l acc == acc + Tiling.Qsum l)%Q.
Proof.
  unfold Tiling.Qsum. revert acc.
  induction l as [|x l IH]; intros acc; simpl.
  - ring.
  - rewrite IH, (IH (0 + x)%Q). ring.
Qed.

Lemma Qsum_cons (x : Q) (l : list Q) :
  (Tiling.Qsum (x :: l) == x + Tiling.Qsum l)%Q.
Proof.
  unfold Tiling.Qsum at 1. simpl. rewrite Qsum_fold. ring.
Qed.

Lemma inject_Z_nonneg (z : Z) : 0 <= z -> (0 <= inject_Z z)%Q.
Proof. intros Hz. change 0%Q with (inject_Z 0). now rewrite <- Zle_Qle. Qed.

Lemma inject_Z_pos (z : Z) : 0 < z -> (0 < inject_Z z)%Q.
Proof. intros Hz. change 0%Q with (inject_Z 0). now rewrite <- Zlt_Qlt. Qed.

Lemma scaled_area_le (s a b : Z) :
  0 <= s < a -> 0 <= b ->
  (0 <= inject_Z s * (inject_Z b / inject_Z a * inject_Z s)
   <= inject_Z (a * b))%Q.
Proof.
  intros Hs Hb.
  assert (HA : (0 < inject_Z a)%Q) by (apply inject_Z_pos; lia).
  assert (HS : (0 <= inject_Z s)%Q) by (apply inject_Z_nonneg; lia).
  assert (HSA : (inject_Z s <= inject_Z a)%Q) by (rewrite <- Zle_Qle; lia).
  assert (HB : (0 <= inject_Z b)%Q) by (apply inject_Z_nonneg; lia).
  set (q := (inject_Z b / inject_Z a)%Q).
  assert (Hq : (q * inject_Z a == inject_Z b)%Q).
  { unfold q. field. intros E. rewrite E in HA. now apply Qlt_irrefl in HA. }
  assert (Hq0 : (0 <= q)%Q).
  { unfold q. apply Qle_shift_div_l; [exact HA|]. now rewrite Qmult_0_l. }
  rewrite inject_Z_mult, <- Hq.
  generalize dependent (inject_Z a). generalize dependent (inject_Z s).
  intros S HS A HA HSA q Hq Hq0. clear Hq.
  split.
  - apply Qmult_le_0_compat; [exact HS|].
    apply Qmult_le_0_compat; assumption.
  - setoid_replace (S * (q * S))%Q with ((S * S) * q)%Q by ring.
    setoid_replace (A * (q * A))%Q with ((A * A) * q)%Q by ring.
    apply Qmult_le_compat_r; [|exact Hq0].
    apply Qmult_le_compat_nonneg; split; assumption.
Qed.

Lemma covering_area_bounds (b : box) (side : Z) :
  0 <= side -> box_left b <= box_right b -> box_upper b <= box_lower b ->
  exists a, Tiling._covering_area b side = Ok a
            /\ (0 <= a <= inject_Z (box_area b))%Q.
Proof.
  destruct b as [[[l u] r] d]. intros Hs Hlr Hud.
  unfold Tiling._covering_area.
  unfold box_area, box_left, box_right, box_upper, box_lower in *.
  cbn [fst snd] in *.
  set (w0 := r - l). set (h0 := d - u).
  assert (Harea : Z.max w0 h0 * Z.min w0 h0 = w0 * h0).
  { destruct (Z.max_spec w0 h0) as [[? ->]|[? ->]];
      destruct (Z.min_spec w0 h0) as [[? ->]|[? ->]]; lia. }
  destruct (Z.gtb_spec (Z.max w0 h0) side) as [Hgt|Hle].
  - destruct (Z.eqb_spec (Z.max w0 h0) 0) as [E|_]; [lia|].
    eexists. split; [reflexivity|].
    rewrite <- Harea. apply scaled_area_le; lia.
  - eexists. split; [reflexivity|]. rewrite Harea. split.
    + apply inject_Z_nonneg. subst w0 h0. nia.
    + apply Qle_refl.
Qed.

Lemma mapM_ok {A B : Type} (f : A -> result B) (P : A -> B -> Prop)
    (l : list A) :
  (forall x, In x l -> exists y, f x = Ok y /\ P x y) ->
  exists ys, mapM f l = Ok ys /\ Forall2 P l ys.
Proof.
  induction l as [|x l IH]; intros Hf; simpl.
  - exists []. split; [reflexivity|constructor].
  - destruct (Hf x (or_introl eq_refl)) as (y & Hy & HP).
    destruct IH as (ys & Hys & HF).
    { intros x' Hx'. apply Hf. now right. }
    exists (y :: ys). rewrite Hy, Hys. simpl. split; [reflexivity|].
    now constructor.
Qed.

Lemma Qsum_bounds (bs : list box) (areas : list Q) :
  Forall2 (fun b a => (0 <= a <= inject_Z (box_area b))%Q) bs areas ->
  (0 <= Tiling.Qsum areas <= inject_Z (zsum (map box_area bs)))%Q.
Proof.
  induction 1 as [|b a bs areas [H0 Hle] _ [IH0 IHle]].
  - simpl. split; apply Qle_refl.
  - rewrite Qsum_cons. simpl. rewrite inject_Z_plus. split.
    + change 0%Q with (0 + 0)%Q. now apply Qplus_le_compat.
    + now apply Qplus_le_compat.
Qed.

Lemma partition_boxes_ordered (w h r c : Z) (b : box) :
  1 <= w -> 1 <= h -> 1 <= r -> 1 <= c ->
  In b (Tiling._partition w h (r, c)) ->
  box_left b <= box_right b /\ box_upper b <= box_lower b.
Proof.
  intros Hw Hh Hr Hc. rewrite partition_bands. simpl fst; simpl snd.
  intros Hb. apply in_flat_map in Hb as (row & Hrow & Hb).
  apply in_map_iff in Hb as (col & <- & Hcol).
  apply in_range in Hrow, Hcol.
  unfold box_left, box_right, box_upper, box_lower. simpl.
  pose proof (band_bounds c w col). pose proof (band_bounds r h row). lia.
Qed.

(** The covering ratio of every grid is computed without error and lies
    between 0 and 1. *)
Lemma covering_ratio_bounds (w h side r c : Z) :
  1 <= w -> 1 <= h -> 0 <= side -> 1 <= r -> 1 <= c ->
  exists q, Tiling.covering_ratio w h side (r, c) = Ok q /\ (0 <= q <= 1)%Q.
Proof.
  intros Hw Hh Hs Hr Hc. unfold Tiling.covering_ratio.
  destruct (mapM_ok (fun p => Tiling._covering_area p side)
              (fun b a => (0 <= a <= inject_Z (box_area b))%Q)
              (Tiling._partition w h (r, c))) as (areas & -> & HF).
  { intros b Hb.
    destruct (partition_boxes_ordered w h r c b Hw Hh Hr Hc Hb).
    now apply covering_area_bounds. }
  simpl. destruct (Z.eqb_spec (w * h) 0) as [E|_]; [nia|].
  eexists. split; [reflexivity|].
  apply Qsum_bounds in HF as [H0 Hle].
  rewrite (partition_area_sum w h r c Hr Hc) in Hle.
  assert (Hpos : (0 < inject_Z (w * h))%Q) by (apply inject_Z_pos; nia).
  split.
  - apply Qle_shift_div_l; [exact Hpos|]. now rewrite Qmult_0_l.
  - apply Qle_shift_div_r; [exact Hpos|]. now rewrite Qmult_1_l.
Qed.

(** C4. For an image of positive width and height, a tile side [side >= 0]
    and a grid of [r >= 1] rows and [c >= 1] columns, the covering ratio that
    [_get_best_grid] computes (the sum of the covering areas of the boxes of
    the grid, divided by [w * h]) is at most 1: the test of the assertion
    [covering_ratio <= 1.0] is true. *)
Theorem covering_ratio_le_1 (w h side r c : Z) :
  1 <= w -> 1 <= h -> 0 <= side -> 1 <= r -> 1 <= c ->
  exists q, Tiling.covering_ratio w h side (r, c) = Ok q
            /\ (q <= 1)%Q /\ Qle_bool q 1 = true.
Proof.
  intros Hw Hh Hs Hr Hc.
  destruct (covering_ratio_bounds w h side r c Hw Hh Hs Hr Hc)
    as (q & Hq & _ & Hle).
  exists q. repeat split; [exact Hq|exact Hle|].
  now apply Qle_bool_iff.
Qed.

Lemma covering_ratio_le_1_witness :
  exists q, Tiling.covering_ratio 800 400 384 (2, 2) = Ok q
            /\ (q <= 1)%Q /\ Qle_bool q 1 = true.
Proof. apply (covering_ratio_le_1 800 400 384 2 2); lia. Defined.

(** ** [sorted] and the choice of the best grid *)

Section SortedHead.
Context {A : Type}.
Variable ltb : A -> A -> bool.
Hypothesis ltb_asym : forall x y, ltb x y = true -> ltb y x = false.
Hypothesis ltb_negtrans :
forall x y z, ltb x y = false -> ltb y z = false -> ltb x z = false.

(** The first item of [sorted l] is an item of [l] that no item of [l]
is below. *)
Lemma sorted_head (l : list A) :
l <> [] ->
exists x rest, Tiling.sorted ltb l = x :: rest
/\ In x l /\ forall y, In y l -> ltb y x = false.
Proof.
induction l as [|a l IH]; [congruence|]. intros _.
destruct l as [|b l].
- exists a, []. split; [reflexivity|split; [now left|]].
intros y [<-|[]]. destruct (ltb a a) eqn:E; [|reflexivity].
now rewrite (ltb_asym _ _ E) in E.
- destruct IH as (x & rest & Hs & Hin & Hmin); [congruence|].
change (Tiling.sorted ltb (a :: b :: l))
with (Tiling.insert ltb a (Tiling.sorted ltb (b :: l))).
rewrite Hs. simpl. destruct (ltb x a) eqn:E.
+ exists x, (Tiling.insert ltb a rest).
split; [reflexivity|split; [now right|]].
intros y [<-|Hy]; [now apply ltb_asym|now apply Hmin].
+ exists a, (x :: rest). split; [reflexivity|split; [now left|]].
intros y [<-|Hy].
* destruct (ltb a a) eqn:E'; [|reflexivity].
now rewrite (ltb_asym _ _ E') in E'.
* apply ltb_negtrans with x; [now apply Hmin|exact E].
Qed.
End SortedHead.

Lemma Qltb_true (x y : Q) : Tiling.Qltb x y = true <-> (x < y)%Q.
Proof.
  unfold Tiling.Qltb. rewrite Qlt_alt.
  destruct (x ?= y)%Q; split; congruence.
Qed.

Lemma Qltb_false (x y : Q) : Tiling.Qltb x y = false <-> (y <= x)%Q.
Proof.
  rewrite <- not_true_iff_false, Qltb_true. split.
  - apply Qnot_lt_le.
  - intros Hle Hlt. exact (Qlt_not_le _ _ Hlt Hle).
Qed.

Lemma Qeqb_true (x y : Q) : Tiling.Qeqb x y = true <-> (x == y)%Q.
Proof.
  unfold Tiling.Qeqb. rewrite Qeq_alt.
  destruct (x ?= y)%Q; split; congruence.
Qed.

Lemma Qopp_lt_iff (x y : Q) : (- x < - y)%Q <-> (y < x)%Q.
Proof.
  split; intros Hlt.
  - apply Qopp_lt_compat in Hlt. now rewrite !Qopp_involutive in Hlt.
  - now apply Qopp_lt_compat.
Qed.

Lemma Qopp_eq_iff (x y : Q) : (- x == - y)%Q <-> (x == y)%Q.
Proof. split; intros E; [lra|lra]. Qed.

(** [x] is not before [y] in the order of the good grids. *)
Lemma good_key_ltb_false (x y : Tiling.item) :
  Tiling.good_key_ltb x y = false <->
  n_sub_images (fst y) <= n_sub_images (fst x)
  /\ (n_sub_images (fst x) = n_sub_images (fst y) -> (snd x <= snd y)%Q).
Proof.
  unfold Tiling.good_key_ltb.
  rewrite orb_false_iff, andb_false_iff, Z.ltb_ge, Z.eqb_neq, Qltb_false.
  split.
  - intros [Hle [Hne|Hq]]; split; try lia; intros; lra.
  - intros [Hle Hq]. split; [exact Hle|].
    destruct (Z.eq_dec (n_sub_images (fst x)) (n_sub_images (fst y)))
      as [E|NE]; [right|now left].
    specialize (Hq E). lra.
Qed.

(** [x] is not before [y] in the order of all the grids. *)
Lemma all_key_ltb_false (x y : Tiling.item) :
  Tiling.all_key_ltb x y = false <->
  (snd x <= snd y)%Q
  /\ ((snd x == snd y)%Q -> n_sub_images (fst y) <= n_sub_images (fst x)).
Proof.
  unfold Tiling.all_key_ltb.
  rewrite orb_false_iff, andb_false_iff, Z.ltb_ge, Qltb_false.
  rewrite <- not_true_iff_false, Qeqb_true. split.
  - intros [Hle Hor]. split; [lra|]. intros E.
    destruct Hor as [Hne|Hn]; [|exact Hn].
    exfalso. apply Hne. lra.
  - intros [Hle Hn]. split; [lra|].
    destruct (Qeq_dec (snd x) (snd y)) as [E|NE]; [right; auto|left].
    intros E. apply NE. lra.
Qed.

Lemma good_key_ltb_asym (x y : Tiling.item) :
  Tiling.good_key_ltb x y = true -> Tiling.good_key_ltb y x = false.
Proof.
  intros Hxy. apply good_key_ltb_false.
  unfold Tiling.good_key_ltb in Hxy.
  rewrite orb_true_iff, andb_true_iff, Z.ltb_lt, Z.eqb_eq, Qltb_true in Hxy.
  destruct Hxy as [Hlt|[E Hq]]; split; try lia; intros; lra.
Qed.

Lemma good_key_ltb_negtrans (x y z : Tiling.item) :
  Tiling.good_key_ltb x y = false -> Tiling.good_key_ltb y z = false ->
  Tiling.good_key_ltb x z = false.
Proof.
  rewrite !good_key_ltb_false. intros [H1 Q1] [H2 Q2].
  split; [lia|]. intros E.
  assert (E1 : n_sub_images (fst x) = n_sub_images (fst y)) by lia.
  assert (E2 : n_sub_images (fst y) = n_sub_images (fst z)) by lia.
  specialize (Q1 E1). specialize (Q2 E2). lra.
Qed.

Lemma all_key_ltb_asym (x y : Tiling.item) :
  Tiling.all_key_ltb x y = true -> Tiling.all_key_ltb y x = false.
Proof.
  intros Hxy. apply all_key_ltb_false.
  unfold Tiling.all_key_ltb in Hxy.
  rewrite orb_true_iff, andb_true_iff, Z.ltb_lt, Qltb_true, Qeqb_true in Hxy.
  destruct Hxy as [Hlt|[E Hn]]; split; try lra; intros; try lia; lra.
Qed.

Lemma all_key_ltb_negtrans (x y z : Tiling.item) :
  Tiling.all_key_ltb x y = false -> Tiling.all_key_ltb y z = false ->
  Tiling.all_key_ltb x z = false.
Proof.
  rewrite !all_key_ltb_false. intros [Q1 H1] [Q2 H2].
  split; [lra|]. intros E.
  assert (E1 : (snd x == snd y)%Q) by lra.
  assert (E2 : (snd y == snd z)%Q) by lra.
  specialize (H1 E1). specialize (H2 E2). lia.
Qed.

Lemma in_candidate_grids (max_partition i j : Z) :
  In (i, j) (Tiling.candidate_grids max_partition)
  <-> 1 <= i /\ 1 <= j /\ i * j <= max_partition.
Proof.
  unfold Tiling.candidate_grids. rewrite in_flat_map. split.
  - intros (i' & Hi & Hin). apply in_flat_map in Hin as (j' & Hj & Hin).
    apply in_range2 in Hi, Hj.
    destruct (Z.leb_spec (i' * j') max_partition) as [Hle|_];
      [|contradiction].
    destruct Hin as [E|[]]. injection E as <- <-. lia.
  - intros (Hi & Hj & Hle). exists i. split.
    + apply in_range2. nia.
    + apply in_flat_map. exists j. split.
      * apply in_range2. nia.
      * destruct (Z.leb_spec (i * j) max_partition); [now left|lia].
Qed.

Section BestGrid.
Variables (w h side : Z) (tau : Q).
Hypothesis Hw : 1 <= w.
Hypothesis Hh : 1 <= h.
Hypothesis Hside : 0 <= side.

Let it (g : grid) : Tiling.item := (g, ratio_val w h side g).
Let is_good (x : Tiling.item) : bool := Tiling.Qltb tau (snd x).

Lemma ratio_val_is (g : grid) :
1 <= fst g -> 1 <= snd g ->
ratio_is w h side g (ratio_val w h side g)
/\ (0 <= ratio_val w h side g <= 1)%Q.
Proof.
destruct g as [r c]. simpl. intros Hr Hc.
destruct (covering_ratio_bounds w h side r c Hw Hh Hside Hr Hc)
as (q & Hq & Hb).
unfold ratio_is, ratio_val. rewrite Hq. now split.
Qed.

(** The loop over the candidates fills the two lists in the order of the
candidates. *)
Lemma scan_grids_ok (candidates : list grid) :
Forall (fun g => 1 <= fst g /\ 1 <= snd g) candidates ->
forall all_grids good_grids,
Tiling.scan_grids w h side tau candidates all_grids good_grids
= Ok (all_grids ++ map it candidates,
good_grids ++ filter is_good (map it candidates)).
Proof.
induction 1 as [|g l [Hr Hc] _ IH]; intros all_grids good_grids; simpl.
- now rewrite !app_nil_r.
- destruct (ratio_val_is g Hr Hc) as [Hq [_ Hle]].
unfold ratio_is in Hq. rewrite Hq. simpl.
apply Qle_bool_iff in Hle. rewrite Hle, IH.
unfold is_good at 2. unfold it at 3. simpl.
destruct (Tiling.Qltb tau (ratio_val w h side g));
now rewrite <- !app_assoc.
Qed.

(** [best_grid_of] returns a candidate that obeys the selection rule. *)
Lemma best_grid_of_selects (candidates : list grid) :
candidates <> [] ->
Forall (fun g => 1 <= fst g /\ 1 <= snd g) candidates ->
exists g, Tiling.best_grid_of w h side tau candidates = Ok g
/\ In g candidates
/\ selection_rule w h side tau candidates g.
Proof.
intros Hne Hall. unfold Tiling.best_grid_of.
rewrite (scan_grids_ok candidates Hall). simpl.
assert (Hval : forall g q, In g candidates -> ratio_is w h side g q ->
 q = ratio_val w h side g).
{ intros g q _ Hq. unfold ratio_is in Hq. unfold ratio_val.
now rewrite Hq. }
assert (Hgood : forall g, In g candidates ->
(good_grid w h side tau g <-> is_good (it g) = true)).
{ intros g Hg. unfold is_good, it. simpl. rewrite Qltb_true. split.
- intros (q & Hq & Hlt). now rewrite <- (Hval g q Hg Hq).
- intros Hlt. exists (ratio_val w h side g). split; [|exact Hlt].
rewrite Forall_forall in Hall. destruct (Hall g Hg).
now apply ratio_val_is. }
destruct (filter is_good (map it candidates)) as [|x0 goods] eqn:Hf.
- (* no good grid *)
simpl.
destruct (sorted_head Tiling.all_key_ltb all_key_ltb_asym
all_key_ltb_negtrans (map it candidates))
as (x & rest & -> & Hin & Hmin).
{ destruct candidates; [congruence|discriminate]. }
apply in_map_iff in Hin as (g & <- & Hg).
exists g. split; [reflexivity|split; [exact Hg|]].
exists (ratio_val w h side g). split.
{ rewrite Forall_forall in Hall. destruct (Hall g Hg).
now apply ratio_val_is. }
split.
+ intros (g' & Hg' & Hgd). exfalso.
apply (Hgood g' Hg') in Hgd.
assert (Hin : In (it g') (filter is_good (map it candidates))).
{ apply filter_In. split; [now apply in_map|exact Hgd]. }
now rewrite Hf in Hin.
+ intros _ g' q' Hg' Hq'. rewrite (Hval g' q' Hg' Hq').
specialize (Hmin (it g') (in_map it _ _ Hg')).
apply all_key_ltb_false in Hmin. exact Hmin.
- (* some good grid *)
replace (0 <? Z.of_nat (length (x0 :: goods))) with true
by (symmetry; apply Z.ltb_lt; simpl; lia).
rewrite <- Hf.
destruct (sorted_head Tiling.good_key_ltb good_key_ltb_asym
good_key_ltb_negtrans (filter is_good (map it candidates)))
as (x & rest & -> & Hin & Hmin).
{ rewrite Hf. discriminate. }
apply filter_In in Hin as [Hin Hx].
apply in_map_iff in Hin as (g & <- & Hg).
exists g. split; [reflexivity|split; [exact Hg|]].
exists (ratio_val w h side g). split.
{ rewrite Forall_forall in Hall. destruct (Hall g Hg).
now apply ratio_val_is. }
split.
+ intros _. split; [now apply Qltb_true|].
intros g' q' Hg' Hq' Hlt. rewrite (Hval g' q' Hg' Hq') in *.
assert (Hin : In (it g') (filter is_good (map it candidates))).
{ apply filter_In. split; [now apply in_map|].
now apply Qltb_true. }
specialize (Hmin _ Hin). apply good_key_ltb_false in Hmin.
exact Hmin.
+ intros Hno. exfalso. apply Hno. exists g. split; [exact Hg|].
now apply Hgood.
Qed.
End BestGrid.

(** [_get_best_grid] returns a candidate that obeys the selection rule. *)
Lemma get_best_grid_selection_aux (w h side max_partition : Z) (tau : Q) :
  1 <= w -> 1 <= h -> 0 <= side -> 1 <= max_partition ->
  exists g, Tiling._get_best_grid w h side max_partition tau = Ok g
    /\ In g (Tiling.candidate_grids max_partition)
    /\ Forall (fun g => 1 <= fst g /\ 1 <= snd g)
         (Tiling.candidate_grids max_partition)
    /\ selection_rule w h side tau (Tiling.candidate_grids max_partition) g.
Proof.
  intros Hw Hh Hs Hn. unfold Tiling._get_best_grid.
  assert (Hall : Forall (fun g => 1 <= fst g /\ 1 <= snd g)
                   (Tiling.candidate_grids max_partition)).
  { apply Forall_forall. intros [i j] Hin.
    apply in_candidate_grids in Hin. simpl. lia. }
  destruct (best_grid_of_selects w h side tau Hw Hh Hs
              (Tiling.candidate_grids max_partition))
    as (g & Hg & Hin & Hsel); [|exact Hall|].
  - intros E.
    assert (Hin : In (1, 1) (Tiling.candidate_grids max_partition))
      by (apply in_candidate_grids; lia).
    now rewrite E in Hin.
  - exists g. now repeat split.
Qed.

(** *** The choice of the interpreter *)

(** The first item of the sorted list obeys the selection rule among the
    items. *)
Lemma pick_rule (tau : Q) (items : list Tiling.item) :
  items <> [] ->
  exists x,
    Tiling64.pick items
      (filter (fun y : Tiling.item => Tiling.Qltb tau (snd y)) items)
    = Ok (fst x)
    /\ In x items
    /\ ((exists y, In y items /\ (tau < snd y)%Q) ->
        (tau < snd x)%Q
        /\ forall y, In y items -> (tau < snd y)%Q ->
             n_sub_images (fst x) <= n_sub_images (fst y)
             /\ (n_sub_images (fst y) = n_sub_images (fst x) ->
                 (snd y <= snd x)%Q))
    /\ (~ (exists y, In y items /\ (tau < snd y)%Q) ->
        forall y, In y items ->
          (snd y <= snd x)%Q
          /\ ((snd y == snd x)%Q ->
              n_sub_images (fst x) <= n_sub_images (fst y))).
Proof.
  intros Hne. unfold Tiling64.pick.
  match goal with |- context [filter ?f items] => set (is_good := f) end.
  assert (Hgood : forall y, In y (filter is_good items)
                            <-> In y items /\ (tau < snd y)%Q).
  { intros y. rewrite filter_In. unfold is_good. now rewrite Qltb_true. }
  destruct (filter is_good items) as [|x0 goods] eqn:Hf.
  - simpl.
    destruct (sorted_head Tiling.all_key_ltb all_key_ltb_asym
                all_key_ltb_negtrans items Hne)
      as (x & rest & -> & Hin & Hmin).
    exists x. split; [reflexivity|split; [exact Hin|]]. split.
    + intros (y & Hy & Hlt). exfalso.
      assert (Hiny : In y []) by (apply Hgood; now split).
      exact Hiny.
    + intros _ y Hy. specialize (Hmin y Hy).
      apply all_key_ltb_false in Hmin. exact Hmin.
  - replace (0 <? Z.of_nat (length (x0 :: goods))) with true
      by (symmetry; apply Z.ltb_lt; simpl; lia).
    destruct (sorted_head Tiling.good_key_ltb good_key_ltb_asym
                good_key_ltb_negtrans (x0 :: goods))
      as (x & rest & -> & Hin & Hmin); [discriminate|].
    apply Hgood in Hin as [Hin Hx].
    exists x. split; [reflexivity|split; [exact Hin|]]. split.
    + intros _. split; [exact Hx|]. intros y Hy Hlt.
      assert (Hiny : In y (x0 :: goods)) by (apply Hgood; now split).
      specialize (Hmin y Hiny). apply good_key_ltb_false in Hmin.
      exact Hmin.
    + intros Hno. exfalso. apply Hno. now exists x.
Qed.

Section BestGrid64.
Import Binary64.
Variable py_sum : list num -> num.
Variables (w h side : Z) (tau : Q).
Hypothesis Hw : 1 <= w.
Hypothesis Hh : 1 <= h.
Hypothesis Hside : 0 <= side.

Let it (g : grid) : Tiling.item := (g, ratio64 py_sum w h side g).
Let is_good (x : Tiling.item) : bool := Tiling.Qltb tau (snd x).

(** A division by a positive integer raises nothing. *)
Lemma truediv_defined (x : num) (y : Z) :
1 <= y -> exists q, truediv x (PyInt y) = Ok q.
Proof.
intros Hy. destruct x as [z|f]; simpl.
- destruct (Z.eqb_spec y 0); [lia|]. now eexists.
- destruct (Qeq_bool (round (inject_Z y)) 0) eqn:E; [|now eexists].
  exfalso. apply Qeq_bool_iff in E.
  assert (H1 : (round 1 <= round (inject_Z y))%Q).
  { apply round_mono; [lra|]. change 1%Q with (inject_Z 1).
    rewrite <- Zle_Qle. exact Hy. }
  change 1%Q with (inject_Z 1) in H1. rewrite (round_Z 1) in H1 by lia.
  rewrite E in H1. change (inject_Z 1) with 1%Q in H1. lra.
Qed.

Lemma covering_area_defined (b : box) :
exists n, Tiling64._covering_area b side = Ok n.
Proof.
destruct b as [[[lft upper] rgt] lower]. unfold Tiling64._covering_area.
destruct (Z.gtb_spec (Z.max (rgt - lft) (lower - upper)) side) as [Hgt|_];
  [|now eexists].
simpl. destruct (Z.eqb_spec (Z.max (rgt - lft) (lower - upper)) 0); [lia|].
simpl. now eexists.
Qed.

(** The covering ratio of every grid is computed without error. *)
Lemma ratio64_is (g : grid) :
computes_ratio py_sum w h side g (ratio64 py_sum w h side g).
Proof.
unfold computes_ratio, ratio64, Tiling64.covering_ratio.
destruct (mapM_ok (fun p => Tiling64._covering_area p side)
            (fun _ _ => True) (Tiling._partition w h g)) as (areas & -> & _).
{ intros b _. destruct (covering_area_defined b) as (n & Hn).
  now exists n. }
cbn [bind].
destruct (truediv_defined (py_sum areas) (w * h)) as (q & ->); [nia|].
reflexivity.
Qed.

Lemma computes_ratio64 (g : grid) (q : Q) :
computes_ratio py_sum w h side g q <-> q = ratio64 py_sum w h side g.
Proof.
pose proof (ratio64_is g) as Hg. unfold computes_ratio in *. split.
- intros Hq. rewrite Hq in Hg. now injection Hg.
- now intros ->.
Qed.

(** The loop over the candidates: the assertion fails at the first
candidate whose ratio is above 1; without one, the loop fills the two
lists in the order of the candidates. *)
Lemma scan_grids64 (candidates : list grid) :
forall all_grids good_grids,
Tiling64.scan_grids py_sum w h side tau candidates all_grids good_grids
= if forallb (fun g => Qle_bool (ratio64 py_sum w h side g) 1) candidates
  then Ok (all_grids ++ map it candidates,
           good_grids ++ filter is_good (map it candidates))
  else Raise AssertionError.
Proof.
induction candidates as [|g l IH]; intros all_grids good_grids; simpl.
- now rewrite !app_nil_r.
- pose proof (ratio64_is g) as Hg. unfold computes_ratio in Hg.
  rewrite Hg. cbn [bind].
  destruct (Qle_bool (ratio64 py_sum w h side g) 1); [|reflexivity].
  rewrite IH. cbn [andb].
  destruct (forallb (fun g0 => Qle_bool (ratio64 py_sum w h side g0) 1) l);
    [|reflexivity].
  unfold is_good, it. cbn [snd].
  destruct (Tiling.Qltb tau (ratio64 py_sum w h side g));
    now rewrite <- !app_assoc.
Qed.
End BestGrid64.

(** What [_get_best_grid] returns or raises. *)
Lemma get_best_grid_outcome (py_sum : list Binary64.num -> Binary64.num)
    (w h side max_partition : Z) (tau : Q) :
  1 <= w -> 1 <= h -> 0 <= side -> 1 <= max_partition ->
  match Tiling64._get_best_grid py_sum w h side max_partition tau with
  | Ok g =>
      candidate max_partition g
      /\ selects py_sum w h side max_partition tau g
  | Raise e =>
      e = AssertionError
      /\ exists g q, candidate max_partition g
                     /\ computes_ratio py_sum w h side g q /\ (1 < q)%Q
  end.
Proof.
  intros Hw Hh Hs Hn. unfold Tiling64._get_best_grid.
  rewrite (scan_grids64 py_sum w h side tau Hw Hh Hs). cbn [app].
  set (rv := ratio64 py_sum w h side).
  set (cands := Tiling.candidate_grids max_partition).
  assert (Hcand : forall g, In g cands <-> candidate max_partition g).
  { intros [i j]. unfold cands. rewrite in_candidate_grids. reflexivity. }
  destruct (forallb (fun g => Qle_bool (rv g) 1) cands) eqn:Hall.
  - cbn [bind fst snd].
    match goal with
    | |- context [Tiling64.pick ?a _] =>
        destruct (pick_rule tau a) as (x & Hpick & Hin & Hgood & Hnone)
    end.
    { intros E. apply map_eq_nil in E.
      assert (Hin : In (1, 1) cands)
        by (apply Hcand; unfold candidate; simpl; lia).
      now rewrite E in Hin. }
    rewrite Hpick. apply in_map_iff in Hin as (g & <- & Hg). cbn [fst snd] in *.
    split; [now apply Hcand|].
    assert (Hex : some_good py_sum w h side max_partition tau
                  <-> exists y, In y (map (fun g => (g, rv g)) cands)
                                /\ (tau < snd y)%Q).
    { split.
      - intros (g' & q' & Hg' & Hq' & Hlt).
        apply (computes_ratio64 py_sum w h side Hw Hh Hs) in Hq'. subst q'.
        exists (g', rv g'). split; [|exact Hlt].
        apply (in_map (fun g0 : grid => (g0, rv g0))). now apply Hcand.
      - intros (y & Hy & Hlt). apply in_map_iff in Hy as (g' & <- & Hg').
        exists g', (rv g'). split; [now apply Hcand|].
        split; [|exact Hlt].
        now apply (ratio64_is py_sum w h side Hw Hh Hs). }
    exists (rv g). split; [now apply (ratio64_is py_sum w h side Hw Hh Hs)|].
    split.
    + intros Hsome. destruct (Hgood (proj1 Hex Hsome)) as [Hlt Hmin].
      split; [exact Hlt|]. intros g' q' Hg' Hq' Hlt'.
      apply (computes_ratio64 py_sum w h side Hw Hh Hs) in Hq'. subst q'.
      apply (Hmin (g', rv g')); [|exact Hlt'].
      apply (in_map (fun g0 : grid => (g0, rv g0))). now apply Hcand.
    + intros Hno g' q' Hg' Hq'.
      apply (computes_ratio64 py_sum w h side Hw Hh Hs) in Hq'. subst q'.
      apply (Hnone (fun H => Hno (proj2 Hex H)) (g', rv g')).
      apply (in_map (fun g0 : grid => (g0, rv g0))). now apply Hcand.
  - cbn [bind]. split; [reflexivity|].
    assert (Hex : existsb (fun g => negb (Qle_bool (rv g) 1)) cands = true).
    { clear -Hall. induction cands as [|g l IH]; [discriminate|].
      simpl in *. destruct (Qle_bool (rv g) 1); [now apply IH|reflexivity]. }
    apply existsb_exists in Hex as (g & Hg & Hgt).
    exists g, (rv g). split; [now apply Hcand|].
    split; [now apply (ratio64_is py_sum w h side Hw Hh Hs)|].
    apply Qnot_le_lt. intros Hle. apply Qle_bool_iff in Hle.
    now rewrite Hle in Hgt.
Qed.

(** C1. For an image of [w] by [h] pixels and a tile side [side], all
    integers that binary64 holds exactly ([1 <= w, h <= 2 ^ 53] and
    [0 <= side <= 2 ^ 53]), a budget [max_partition >= 1], any threshold
    [tau] and any way the builtin [sum] rounds: [_get_best_grid] returns a
    grid [(r, c)] with [r, c >= 1] and [r * c <= max_partition] that obeys
    the selection rule on the covering ratios that the interpreter computes.
    If some candidate has a ratio above [tau], the grid returned is such a
    good grid with the least [r * c], and of the greatest ratio among the
    good grids with that [r * c]; if none has, the grid returned has the
    greatest ratio of all the candidates, and the least [r * c] among those
    of that ratio.  The only exception raised is that of the assertion
    [covering_ratio <= 1.0], when the computed ratio of a candidate is above
    1. *)
Theorem get_best_grid_selects (py_sum : list Binary64.num -> Binary64.num)
    (w h side max_partition : Z) (tau : Q) :
  1 <= w <= 2 ^ 53 -> 1 <= h <= 2 ^ 53 -> 0 <= side <= 2 ^ 53 ->
  1 <= max_partition ->
  match Tiling64._get_best_grid py_sum w h side max_partition tau with
  | Ok g =>
      candidate max_partition g
      /\ selects py_sum w h side max_partition tau g
  | Raise e =>
      e = AssertionError
      /\ exists g q, candidate max_partition g
                     /\ computes_ratio py_sum w h side g q /\ (1 < q)%Q
  end.
Proof.
  intros [Hw _] [Hh _] [Hs _] Hn.
  now apply get_best_grid_outcome.
Qed.

(** The image of 1500 by 1000 pixels with tiles of side 384, a budget of 9
    and the threshold 0.9: no grid is good, and the grids (2, 3), (2, 4) and
    (3, 3) have the same exact ratio [9216 / 15625]; the ratio computed for
    (3, 3) is one binary64 number above that of the other two, and (3, 3) is
    returned. *)
Lemma get_best_grid_selects_witness :
  Tiling64._get_best_grid Binary64.sum 1500 1000 384 9
    (Binary64.round (9 # 10)) = Ok (3, 3)
  /\ candidate 9 (3, 3)
  /\ selects Binary64.sum 1500 1000 384 9 (Binary64.round (9 # 10)) (3, 3).
Proof.
  assert (E : Tiling64._get_best_grid Binary64.sum 1500 1000 384 9
                (Binary64.round (9 # 10)) = Ok (3, 3))
    by (vm_compute; reflexivity).
  split; [exact E|].
  pose proof (get_best_grid_selects Binary64.sum 1500 1000 384 9
                (Binary64.round (9 # 10))) as H.
  rewrite E in H. apply H; lia.
Defined.


Lemma good_grid_iff (w h side : Z) (tau : Q) (g : grid) :
  1 <= w -> 1 <= h -> 0 <= side -> 1 <= fst g -> 1 <= snd g ->
  good_grid w h side tau g <-> (tau < ratio_val w h side g)%Q.
Proof.
  intros Hw Hh Hs Hr Hc.
  destruct (ratio_val_is w h side Hw Hh Hs g Hr Hc) as [Hq _]. split.
  - intros (q & Hq' & Hlt). unfold ratio_is in *.
    rewrite Hq in Hq'. now injection Hq' as <-.
  - intros Hlt. now exists (ratio_val w h side g).
Qed.

Lemma good_grid_exists_dec (w h side : Z) (tau : Q) (candidates : list grid) :
  1 <= w -> 1 <= h -> 0 <= side ->
  Forall (fun g => 1 <= fst g /\ 1 <= snd g) candidates ->
  (exists g, In g candidates /\ good_grid w h side tau g)
  \/ ~ (exists g, In g candidates /\ good_grid w h side tau g).
Proof.
  intros Hw Hh Hs Hall. rewrite Forall_forall in Hall.
  destruct (existsb (fun g => Tiling.Qltb tau (ratio_val w h side g))
              candidates) eqn:E.
  - left. apply existsb_exists in E as (g & Hg & Hlt).
    exists g. split; [exact Hg|]. destruct (Hall g Hg).
    apply good_grid_iff; try assumption. now apply Qltb_true.
  - right. intros (g & Hg & Hgood).
    assert (Ht : existsb (fun g => Tiling.Qltb tau (ratio_val w h side g))
                   candidates = true).
    { apply existsb_exists. exists g. split; [exact Hg|].
      destruct (Hall g Hg). apply Qltb_true.
      now apply good_grid_iff in Hgood. }
    congruence.
Qed.

(** Two grids that obey the selection rule on lists of the same candidates
    have the same number of tiles and the same covering ratio. *)
Lemma selection_rule_key_unique (w h side : Z) (tau : Q)
    (l l' : list grid) (g g' : grid) :
  1 <= w -> 1 <= h -> 0 <= side ->
  Forall (fun g => 1 <= fst g /\ 1 <= snd g) l ->
  (forall x, In x l <-> In x l') ->
  In g l -> In g' l' ->
  selection_rule w h side tau l g -> selection_rule w h side tau l' g' ->
  n_sub_images g = n_sub_images g'
  /\ exists q q', ratio_is w h side g q /\ ratio_is w h side g' q'
                  /\ (q == q')%Q.
Proof.
  intros Hw Hh Hs Hall Hsame Hg Hg' (q & Hq & Hgood & Hnone)
    (q' & Hq' & Hgood' & Hnone').
  assert (Hex : (exists x, In x l /\ good_grid w h side tau x)
                <-> (exists x, In x l' /\ good_grid w h side tau x)).
  { split; intros (x & Hx & Hgx); exists x; split; try assumption;
      now apply Hsame. }
  destruct (good_grid_exists_dec w h side tau l Hw Hh Hs Hall) as [Hyes|Hno].
  - destruct (Hgood Hyes) as [Hlt Hmin].
    destruct (Hgood' (proj1 Hex Hyes)) as [Hlt' Hmin'].
    destruct (Hmin g' q' (proj2 (Hsame g') Hg') Hq' Hlt') as [Hn Hr].
    destruct (Hmin' g q (proj1 (Hsame g) Hg) Hq Hlt) as [Hn' Hr'].
    assert (E : n_sub_images g = n_sub_images g') by lia.
    split; [exact E|]. exists q, q'. repeat split; try assumption.
    specialize (Hr (eq_sym E)). specialize (Hr' E). lra.
  - assert (Hno' : ~ (exists x, In x l' /\ good_grid w h side tau x))
      by (intros Hyes; apply Hno, Hex, Hyes).
    destruct (Hnone Hno g' q' (proj2 (Hsame g') Hg') Hq') as [Hr Hn].
    destruct (Hnone' Hno' g q (proj1 (Hsame g) Hg) Hq) as [Hr' Hn'].
    assert (E : (q == q')%Q) by lra.
    split.
    + assert (E' : (q' == q)%Q) by lra.
      specialize (Hn E'). specialize (Hn' E). lia.
    + exists q, q'. now repeat split.
Qed.

(** C9, as stated, fails: on an image of 3 by 3 pixels with tiles of side 1,
    a budget of 6 and the threshold 0.9, the grids [(2, 3)] and [(3, 2)] have
    the same covering ratio 1/2, the greatest of all, and the same number of
    tiles; [_get_best_grid] returns [(2, 3)], and returns [(3, 2)] when the
    candidates are enumerated in the reverse order. *)
Lemma best_grid_depends_on_order :
  ~ (forall w h side max_partition tau candidates,
       Permutation (Tiling.candidate_grids max_partition) candidates ->
       Tiling.best_grid_of w h side tau candidates
       = Tiling._get_best_grid w h side max_partition tau).
Proof.
  intros Hind.
  specialize (Hind 3 3 1 6 (9 # 10) (rev (Tiling.candidate_grids 6))
                (Permutation_rev _)).
  vm_compute in Hind. discriminate Hind.
Qed.

(** C9, amended. The grid returned is a function of the inputs, and for
    every permutation of the list of candidates, the grid selected is a
    candidate with the same number of tiles and the same covering ratio as
    the grid that [_get_best_grid] returns. *)
Theorem best_grid_key_order_independent (w h side max_partition : Z) (tau : Q)
    (candidates : list grid) :
  1 <= w -> 1 <= h -> 0 <= side -> 1 <= max_partition ->
  Permutation (Tiling.candidate_grids max_partition) candidates ->
  exists g g' q q',
    Tiling._get_best_grid w h side max_partition tau = Ok g
    /\ Tiling.best_grid_of w h side tau candidates = Ok g'
    /\ In g' (Tiling.candidate_grids max_partition)
    /\ n_sub_images g' = n_sub_images g
    /\ ratio_is w h side g q /\ ratio_is w h side g' q' /\ (q' == q)%Q.
Proof.
  intros Hw Hh Hs Hn Hperm.
  destruct (get_best_grid_selection_aux w h side max_partition tau
              Hw Hh Hs Hn) as (g & Hg & Hin & Hall & Hsel).
  assert (Hall' : Forall (fun g => 1 <= fst g /\ 1 <= snd g) candidates).
  { eapply Permutation_Forall; eassumption. }
  destruct (best_grid_of_selects w h side tau Hw Hh Hs candidates)
    as (g' & Hg' & Hin' & Hsel'); [|exact Hall'|].
  { intros E. rewrite E in Hperm.
    apply Permutation_sym, Permutation_nil in Hperm.
    now rewrite Hperm in Hin. }
  assert (Hsame : forall x, In x (Tiling.candidate_grids max_partition)
                            <-> In x candidates).
  { intros x. split; apply Permutation_in;
      [exact Hperm|now apply Permutation_sym]. }
  destruct (selection_rule_key_unique w h side tau _ _ g g' Hw Hh Hs Hall
              Hsame Hin Hin' Hsel Hsel') as (En & q & q' & Hq & Hq' & Eq).
  exists g, g', q, q'. repeat split; try assumption.
  - now apply Hsame.
  - now symmetry.
  - now symmetry.
Qed.

Lemma best_grid_key_order_independent_witness :
  exists g g' q q',
    Tiling._get_best_grid 3 3 1 6 (9 # 10) = Ok g
    /\ Tiling.best_grid_of 3 3 1 (9 # 10) (rev (Tiling.candidate_grids 6))
       = Ok g'
    /\ In g' (Tiling.candidate_grids 6)
    /\ n_sub_images g' = n_sub_images g
    /\ ratio_is 3 3 1 g q /\ ratio_is 3 3 1 g' q' /\ (q' == q)%Q.
Proof.
  apply (best_grid_key_order_independent 3 3 1 6 (9 # 10)); try lia.
  apply Permutation_rev.
Defined.

(** ** [construct_image_placeholders] *)

(** The length of what a loop over [range n] emits, when the iteration [k]
    emits [base] items and one more if [k < limit]. *)
Lemma length_flat_map_range {A : Type} (f : Z -> list A) (base limit n : Z) :
  0 <= n -> 0 <= limit ->
  (forall k, 0 <= k < n ->
     Z.of_nat (length (f k)) = base + (if k <? limit then 1 else 0)) ->
  Z.of_nat (length (flat_map f (range n))) = n * base + Z.min n limit.
Proof.
  intros Hn Hl. pattern n, (range n). apply range_ind; [ | |exact Hn].
  - intros _. simpl. lia.
  - intros m Hm IH Hf. rewrite flat_map_app, length_app. simpl.
    rewrite app_nil_r, Nat2Z.inj_add.
    rewrite IH by (intros; apply Hf; lia). rewrite Hf by lia.
    destruct (Z.ltb_spec m limit); lia.
Qed.

Section PlaceholderFacts.
Variable tok : special -> Z.

(** The tokens of the tiles: what the two loops of
[construct_image_placeholders] append. *)
Lemma placeholders_shape (g : grid) :
exists body,
Placeholders.construct_image_placeholders tok g
= [tok image_start; tok image_atom; tok image_prefix] ++ body
++ [tok image_end]
/\ (1 <= fst g -> 1 <= snd g ->
Z.of_nat (length body)
= if fst g * snd g =? 1 then 0
else fst g * snd g + fst g * (snd g - 1) + (fst g - 1)).
Proof.
destruct g as [r c]. unfold Placeholders.construct_image_placeholders.
cbn [fst snd].
destruct (Z.gtb_spec (r * c) 1) as [Hgt|Hle].
- eexists. split; [rewrite <- app_assoc; reflexivity|].
intros Hr Hc. destruct (Z.eqb_spec (r * c) 1) as [E|_]; [lia|].
rewrite (length_flat_map_range _ (2 * c - 1) (r - 1)); try lia.
intros k Hk. rewrite length_app, Nat2Z.inj_add.
rewrite (length_flat_map_range _ 1 (c - 1)); try lia.
+ destruct (Z.ltb_spec k (r - 1)); cbn [length]; lia.
+ intros j Hj. destruct (Z.ltb_spec j (c - 1)); cbn [length]; lia.
- exists []. split; [reflexivity|].
intros Hr Hc. destruct (Z.eqb_spec (r * c) 1) as [_|NE]; [reflexivity|].
nia.
Qed.
End PlaceholderFacts.

(** C3. For a grid of [r >= 1] rows and [c >= 1] columns,
    [construct_image_placeholders] returns START, ATOM, PREFIX, then the
    tokens of the tiles, then END; the sequence has 4 tokens when
    [r * c = 1] and [4 + r * c + r * (c - 1) + (r - 1)] tokens when
    [r * c > 1]: 4 for the grid (1, 1), 11 for (2, 2) and 9 for (1, 3). *)
Theorem placeholders_length (tok : special -> Z) (r c : Z) :
  1 <= r -> 1 <= c ->
  let p := Placeholders.construct_image_placeholders tok (r, c) in
  Z.of_nat (length p)
  = (if r * c =? 1 then 4 else 4 + r * c + r * (c - 1) + (r - 1))
  /\ firstn 3 p = [tok image_start; tok image_atom; tok image_prefix]
  /\ skipn (length p - 1) p = [tok image_end]
  /\ length (Placeholders.construct_image_placeholders tok (1, 1)) = 4%nat
  /\ length (Placeholders.construct_image_placeholders tok (2, 2)) = 11%nat
  /\ length (Placeholders.construct_image_placeholders tok (1, 3)) = 9%nat.
Proof.
  intros Hr Hc p. subst p.
  destruct (placeholders_shape tok (r, c)) as (body & -> & Hlen).
  specialize (Hlen Hr Hc). cbn [fst snd] in Hlen.
  split; [|split; [reflexivity|split; [|now repeat split]]].
  - rewrite !length_app, !Nat2Z.inj_add, Hlen. simpl length.
    destruct (Z.eqb_spec (r * c) 1); lia.
  - rewrite app_assoc.
    remember ([tok image_start; tok image_atom; tok image_prefix] ++ body)
      as l eqn:El.
    rewrite length_app. cbn [length].
    replace (length l + 1 - 1)%nat with (length l) by lia.
    now rewrite skipn_app, skipn_all, Nat.sub_diag.
Qed.

Lemma placeholders_length_witness :
  let tok := fun s : special =>
    match s with
    | image_token => 0 | image_start => 1 | image_atom => 2
    | image_prefix => 3 | image_col_sep => 4 | image_row_sep => 5
    | image_end => 6
    end in
  let p := Placeholders.construct_image_placeholders tok (2, 3) in
  Z.of_nat (length p)
  = (if 2 * 3 =? 1 then 4 else 4 + 2 * 3 + 2 * (3 - 1) + (2 - 1))
  /\ firstn 3 p = [tok image_start; tok image_atom; tok image_prefix]
  /\ skipn (length p - 1) p = [tok image_end]
  /\ length (Placeholders.construct_image_placeholders tok (1, 1)) = 4%nat
  /\ length (Placeholders.construct_image_placeholders tok (2, 2)) = 11%nat
  /\ length (Placeholders.construct_image_placeholders tok (1, 3)) = 9%nat.
Proof.
  intros tok. apply (placeholders_length tok 2 3); lia.
Defined.

(** ** [OvisProcessor.__call__] *)

Lemma bind_ok {A B : Type} (m : result A) (f : A -> result B) (b : B) :
  bind m f = Ok b -> exists a, m = Ok a /\ f a = Ok b.
Proof. destruct m as [a|e]; simpl; [eauto|discriminate]. Qed.

Section ProcessorFacts.
Variable image_token_id : Z.

(** [image_token_id in ids_tensor]: the token occurs at least once. *)
Lemma contains_count (ids : list Z) :
Processor.contains image_token_id ids
= (0 <? count_token image_token_id ids)%nat.
Proof.
unfold Processor.contains, count_token.
induction ids as [|t ids IH]; [reflexivity|]. simpl.
destruct (image_token_id =? t); [reflexivity|exact IH].
Qed.

Lemma with_image_token_cons (ids attn : list Z)
(samples : list (list Z * list Z)) :
with_image_token image_token_id ((ids, attn) :: samples)
= ((if Processor.contains image_token_id ids then 1 else 0)
   + with_image_token image_token_id samples)%nat.
Proof.
unfold with_image_token. cbn [filter fst]. rewrite <- contains_count.
now destruct (Processor.contains image_token_id ids).
Qed.

(** Without image token, nothing is replaced. *)
Lemma expand_without (placeholder_ids ids : list Z) :
Processor.contains image_token_id ids = false ->
expand image_token_id placeholder_ids ids = ids.
Proof.
unfold Processor.contains, expand.
induction ids as [|t ids IH]; [reflexivity|]. simpl.
rewrite orb_false_iff. intros [Ht Hrest]. rewrite Z.eqb_sym, Ht.
simpl. now rewrite IH.
Qed.

(** The inner loop replaces every image token of the sample by the same
placeholder sequence, and keeps the other tokens. *)
Lemma replace_placeholders_expand (placeholder_ids attn_list : list Z)
(ids_list : list Z) (i : nat) (new_ids new_attn : list Z) :
Processor.replace_placeholders image_token_id placeholder_ids attn_list i
ids_list = Ok (new_ids, new_attn) ->
new_ids = expand image_token_id placeholder_ids ids_list
/\ length new_attn = length new_ids.
Proof.
revert i new_ids new_attn.
induction ids_list as [|t rest IH]; intros i new_ids new_attn Hrun;
simpl in Hrun.
- injection Hrun as <- <-. now split.
- unfold expand. simpl. destruct (Z.eqb_spec t image_token_id) as [E|NE].
+ apply bind_ok in Hrun as ([ids' attn'] & Hrec & Hret).
injection Hret as <- <-. destruct (IH _ _ _ Hrec) as [-> Hlen].
split; [reflexivity|]. simpl.
now rewrite !length_app, repeat_length, Hlen.
+ apply bind_ok in Hrun as (a & _ & Hrun).
apply bind_ok in Hrun as ([ids' attn'] & Hrec & Hret).
injection Hret as <- <-. destruct (IH _ _ _ Hrec) as [-> Hlen].
split; [reflexivity|]. simpl. now rewrite Hlen.
Qed.

(** The loop over the samples: the image tokens of the sample [k] are
replaced by the placeholder sequence whose index is [idx] plus the number
of earlier samples in which the image token occurs. *)
Lemma replace_samples_index (image_placeholders_list : list (list Z))
(samples : list (list Z * list Z)) (idx : nat)
(ids' attn' : list (list Z)) (idx' : nat) :
Processor.replace_samples image_token_id (Some image_placeholders_list)
samples idx = Ok (ids', attn', idx') ->
idx' = (idx + with_image_token image_token_id samples)%nat
/\ length ids' = length samples
/\ forall k ids attn,
 nth_error samples k = Some (ids, attn) ->
 nth_error ids' k
 = Some (expand image_token_id
           (nth (idx + with_image_token image_token_id (firstn k samples))
              image_placeholders_list []) ids).
Proof.
revert idx ids' attn' idx'.
induction samples as [|[ids0 attn0] rest IH];
intros idx ids' attn' idx' Hrun; simpl in Hrun.
- injection Hrun as <- <- <-. unfold with_image_token. simpl.
split; [lia|split; [reflexivity|]]. intros [|k]; discriminate.
- apply bind_ok in Hrun as ([[ids1 attn1] idx1] & Hstep & Hrun).
apply bind_ok in Hrun as ([[ids_rest attn_rest] idx2] & Hrec & Hret).
injection Hret as <- <- <-.
destruct (IH _ _ _ _ Hrec) as (Hidx & Hlen & Hnth). clear IH Hrec.
rewrite with_image_token_cons.
destruct (Processor.contains image_token_id ids0) eqn:Hc.
+ destruct (Nat.ltb_spec idx (length image_placeholders_list))
as [Hlt|_]; [|discriminate].
apply bind_ok in Hstep as (ph & Hph & Hstep).
apply bind_ok in Hstep as ([new_ids new_attn] & Hrep & Hret).
injection Hret as <- <- <-.
apply replace_placeholders_expand in Hrep as [-> _].
unfold Processor.index in Hph.
destruct (nth_error image_placeholders_list idx) as [ph'|] eqn:Hn;
[|discriminate].
injection Hph as ->.
split; [simpl; lia|split; [simpl; lia|]].
intros [|k] ids attn Hk; simpl in Hk.
* injection Hk as <- <-. cbn [firstn nth_error].
  unfold with_image_token at 1. cbn [filter length]. rewrite Nat.add_0_r.
  now rewrite (nth_error_nth _ _ _ Hn).
* cbn [firstn nth_error]. rewrite with_image_token_cons, Hc.
  rewrite (Hnth k ids attn Hk). do 3 f_equal. lia.
+ injection Hstep as <- <- <-.
split; [simpl; exact Hidx|split; [simpl; lia|]].
intros [|k] ids attn Hk; simpl in Hk.
* injection Hk as <- <-. cbn [firstn nth_error].
  now rewrite expand_without.
* cbn [firstn nth_error]. rewrite with_image_token_cons, Hc.
  exact (Hnth k ids attn Hk).
Qed.
End ProcessorFacts.

Lemma mapM_length {A B : Type} (f : A -> result B) (l : list A)
    (ys : list B) :
  mapM f l = Ok ys -> length ys = length l.
Proof.
  revert ys. induction l as [|x l IH]; intros ys Hrun; simpl in Hrun.
  - now injection Hrun as <-.
  - apply bind_ok in Hrun as (y & _ & Hrun).
    apply bind_ok in Hrun as (ys' & Hrec & Hret).
    injection Hret as <-. simpl. now rewrite (IH _ Hrec).
Qed.

Lemma stack_ok (l l' : list (list Z)) : Processor.stack l = Ok l' -> l' = l.
Proof.
  destruct l as [|x rest]; simpl; [discriminate|].
  destruct (forallb _ rest); [|discriminate]. now intros [= <-].
Qed.

(** C10. When [__call__] is given a text and at least one image and
    returns, the sample [k] of [input_ids] is the tokenized sample [k] in
    which every occurrence of the image token is replaced by the placeholder
    sequence of one and the same image.  The index of that image in the list
    of images is the number of earlier samples in which the image token
    occurs at least once, however many times it occurs in them: the index
    advances by one per such sample, and not by one per occurrence.  (A
    sample without image token is unchanged: nothing is replaced in it.) *)
Theorem call_replaces_per_sample {Image P Text : Type}
    `{ImageBackend Image P} (py_sum : list Binary64.num -> Binary64.num)
    (tok : special -> Z)
    (encode : list Text -> list (list Z) * list (list Z))
    (images : images_arg Image) (text : text_arg Text)
    (max_partition : Z) (tau : Q) (rgb : bool) (bf : BatchFeature P) :
  Processor.__call__ py_sum tok encode images text max_partition tau rgb
  = Ok bf ->
  text <> NoText ->
  Processor.images_list images <> [] ->
  exists processed ids',
    mapM (fun image =>
            Processor.preprocess_image py_sum tok image max_partition tau rgb)
         (Processor.images_list images) = Ok processed
    /\ input_ids bf = Some ids'
    /\ let samples :=
         combine (fst (encode (Processor.text_list text)))
                 (snd (encode (Processor.text_list text))) in
       let placeholders := map (fun r => snd (fst r)) processed in
       length ids' = length samples
       /\ forall k ids attn,
            nth_error samples k = Some (ids, attn) ->
            nth_error ids' k
            = Some (expand (tok image_token)
                      (nth (with_image_token (tok image_token)
                              (firstn k samples)) placeholders []) ids).
Proof.
  intros Hrun Htext Himages. unfold Processor.__call__ in Hrun.
  apply bind_ok in Hrun as (processed & Hproc & Hrun).
  assert (Hproc' : mapM (fun image =>
            Processor.preprocess_image py_sum tok image max_partition tau
              rgb)
            (Processor.images_list images) = Ok processed).
  { destruct images; [now destruct Himages|exact Hproc|exact Hproc]. }
  assert (Hne : processed <> []).
  { intros E. apply mapM_length in Hproc'. rewrite E in Hproc'.
    destruct (Processor.images_list images); [congruence|discriminate]. }
  destruct processed as [|p0 processed]; [congruence|].
  cbn [map] in Hrun.
  assert (Hbody :
    (r <- Processor.replace_samples (tok image_token)
            (Some (map (fun r => snd (fst r)) (p0 :: processed)))
            (combine (fst (encode (Processor.text_list text)))
                     (snd (encode (Processor.text_list text)))) 0 ;;
     let '(replaced_ids_list, replaced_attn_mask_list, _) := r in
     stacked <-
       match replaced_ids_list with
       | [] => Ok ([], [])
       | _ =>
           ids <- Processor.stack replaced_ids_list ;;
           attn <- Processor.stack replaced_attn_mask_list ;;
           Ok (ids, attn)
       end ;;
     Ok (MkBatchFeature (Some (fst stacked)) (Some (snd stacked))
           (Some (map (fun r => fst (fst r)) (p0 :: processed)))
           (Some (map snd (p0 :: processed))) None)) = Ok bf).
  { destruct text; [now destruct Htext|exact Hrun|exact Hrun]. }
  clear Hrun. apply bind_ok in Hbody as ([[ids1 attn1] idx1] & Hrep & Hrun).
  apply bind_ok in Hrun as ([ids2 attn2] & Hstack & Hret).
  injection Hret as <-. cbn [input_ids fst].
  apply replace_samples_index in Hrep as (_ & Hlen & Hnth).
  assert (E : ids2 = ids1).
  { destruct ids1 as [|x rest]; [now injection Hstack as <- <-|].
    apply bind_ok in Hstack as (ids & Hs & Hstack).
    apply bind_ok in Hstack as (attn & _ & Hret).
    injection Hret as <- <-. now apply stack_ok in Hs. }
  subst ids2. exists (p0 :: processed), ids1.
  split; [exact Hproc'|split; [reflexivity|split; [exact Hlen|]]].
  intros k ids attn Hk. now rewrite (Hnth k ids attn Hk).
Qed.

Lemma call_replaces_per_sample_witness :
  let images : images_arg Demo.Image := ImageList [(4, 2); (2, 2)] in
  let text :=
    TextList [[1; 2; 3; 4; 5; 6; 7; 8; 9; 10; 11; 12; 13; 14; 15];
              [100; 5; 100];
              [1; 2; 3; 4; 5; 6; 7; 8; 9; 10; 11; 100]] in
  exists bf, Demo.call images text = Ok bf
  /\ exists processed ids',
    mapM (fun image =>
            Processor.preprocess_image (H := Demo.backend) Binary64.sum
              Demo.tok image 9 (Binary64.round (9 # 10)) true)
         (Processor.images_list images) = Ok processed
    /\ input_ids bf = Some ids'
    /\ let samples :=
         combine (fst (Demo.batch_encode_plus (Processor.text_list text)))
                 (snd (Demo.batch_encode_plus (Processor.text_list text))) in
       let placeholders := map (fun r => snd (fst r)) processed in
       length ids' = length samples
       /\ forall k ids attn,
            nth_error samples k = Some (ids, attn) ->
            nth_error ids' k
            = Some (expand (Demo.tok image_token)
                      (nth (with_image_token (Demo.tok image_token)
                              (firstn k samples)) placeholders []) ids).
Proof.
  intros images text.
  destruct (Demo.call images text) as [bf|e] eqn:E.
  - exists bf. split; [reflexivity|].
    apply (call_replaces_per_sample Binary64.sum Demo.tok
             Demo.batch_encode_plus images text 9 (Binary64.round (9 # 10))
             true bf E); discriminate.
  - vm_compute in E. discriminate E.
Defined.

(** C7. The processor does not compare the number of image tokens of a
    sample with the number of images: with one image of 2 by 2 pixels and
    one sample that holds the image token twice, [__call__] raises nothing
    and returns the sample with both occurrences replaced by the
    placeholder sequence of the one image. *)
Theorem call_accepts_count_mismatch :
  let images : images_arg Demo.Image := ImageList [(2, 2)] in
  let sample := [Demo.tok image_token; 5; Demo.tok image_token] in
  count_token (Demo.tok image_token) sample = 2%nat
  /\ length (Processor.images_list images) = 1%nat
  /\ exists bf, Demo.call images (TextList [sample]) = Ok bf
       /\ input_ids bf
          = Some [[101; 102; 103; 106; 5; 101; 102; 103; 106]].
Proof.
  intros images sample. split; [reflexivity|split; [reflexivity|]].
  destruct (Demo.call images (TextList [sample])) as [bf|e] eqn:E.
  - exists bf. split; [reflexivity|].
    vm_compute in E. now injection E as <-.
  - vm_compute in E. discriminate E.
Qed.

(** ** [_preprocess] *)

Lemma py_int_nonneg (q : Q) : (0 <= q)%Q -> Normalizer.py_int q = Qfloor q.
Proof.
  intros Hq. unfold Normalizer.py_int.
  apply Qle_bool_iff in Hq. now rewrite Hq.
Qed.

Section ScaledSide.
Import Binary64.
Variables a b side : Z.

(** [int(a / b * side)]: two roundings, and a truncation. *)
Lemma scaled_side_eq :
b <> 0 ->
Normalizer.scaled_side a b side
= Ok (Normalizer.py_int
        (round (round (inject_Z a / inject_Z b) * round (inject_Z side)))).
Proof.
intros Hb. unfold Normalizer.scaled_side, truediv.
destruct (Z.eqb_spec b 0) as [E|_]; [contradiction|reflexivity].
Qed.

Lemma round_side : 0 <= side <= 2 ^ 53 ->
round (round (inject_Z a / inject_Z b) * round (inject_Z side))
= round (round (inject_Z a / inject_Z b) * inject_Z side).
Proof.
intros Hs. apply round_comp. now rewrite (round_Z side Hs).
Qed.

Lemma ratio_bounds :
0 <= a <= b -> 0 < b -> (0 <= inject_Z a / inject_Z b <= 1)%Q.
Proof.
intros Ha Hb.
assert (Hbq : (0 < inject_Z b)%Q) by now apply inject_Z_pos.
split.
- apply Qle_shift_div_l; [exact Hbq|]. rewrite Qmult_0_l.
  apply inject_Z_nonneg. lia.
- apply Qle_shift_div_r; [exact Hbq|]. rewrite Qmult_1_l.
  rewrite <- Zle_Qle. lia.
Qed.

(** The scaled side is between 0 and the side. *)
Lemma scaled_value_bounds :
0 <= a <= b -> 0 < b -> 0 <= side <= 2 ^ 53 ->
(0 <= round (round (inject_Z a / inject_Z b) * inject_Z side)
 <= inject_Z side)%Q.
Proof.
intros Ha Hb Hs. destruct (ratio_bounds Ha Hb) as [Hx0 Hx1].
assert (Hq0 : (0 <= round (inject_Z a / inject_Z b))%Q)
  by now apply round_nonneg.
assert (Hq1 : (round (inject_Z a / inject_Z b) <= 1)%Q).
{ rewrite <- (round_Z 1) by lia. now apply round_mono. }
assert (Hsq : (0 <= inject_Z side)%Q) by (apply inject_Z_nonneg; lia).
set (q := round (inject_Z a / inject_Z b)) in *.
assert (Hp0 : (0 <= q * inject_Z side)%Q) by now apply Qmult_le_0_compat.
split; [now apply round_nonneg|].
rewrite <- (round_Z side Hs) at 2. apply round_mono; [exact Hp0|]. nra.
Qed.

Lemma scaled_side_bounds :
0 <= a <= b -> 0 < b -> 0 <= side <= 2 ^ 53 ->
exists n, Normalizer.scaled_side a b side = Ok n /\ 0 <= n <= side.
Proof.
intros Ha Hb Hs. rewrite scaled_side_eq by lia. rewrite round_side by exact Hs.
destruct (scaled_value_bounds Ha Hb Hs) as [H0 H1].
eexists. split; [reflexivity|]. rewrite py_int_nonneg by exact H0.
split.
- change 0 with (Qfloor 0). now apply Qfloor_resp_le.
- apply Z.le_trans with (Qfloor (inject_Z side));
    [now apply Qfloor_resp_le|rewrite Qfloor_Z; lia].
Qed.

(** The scaled side keeps the ratio of the sides: it is the floor of
[a * side / b], or one less when the two roundings fall below an
integer. *)
Lemma scaled_value_near :
0 <= a < b -> 1 <= side -> b * side <= 2 ^ 51 ->
(inject_Z (a * side / b) - 1
 <= round (round (inject_Z a / inject_Z b) * inject_Z side)
 < inject_Z (a * side / b) + 1)%Q.
Proof.
intros Ha Hs Hbs.
assert (Hab : 0 <= a <= b) by lia. assert (Hb : 0 < b) by lia.
destruct (ratio_bounds Hab Hb) as [Hx0 Hx1].
assert (Hbq : (1 <= inject_Z b)%Q).
{ change 1%Q with (inject_Z 1). rewrite <- Zle_Qle. lia. }
assert (Hsq : (1 <= inject_Z side)%Q).
{ change 1%Q with (inject_Z 1). rewrite <- Zle_Qle. lia. }
destruct (round_error (inject_Z a / inject_Z b) Hx0) as [Hq1 Hq2].
assert (Hq0 : (0 <= round (inject_Z a / inject_Z b))%Q)
  by now apply round_nonneg.
set (A := (inject_Z a / inject_Z b)%Q) in *.
set (q := round A) in *.
assert (Hp0 : (0 <= q * inject_Z side)%Q)
  by (apply Qmult_le_0_compat; lra).
destruct (round_error (q * inject_Z side) Hp0) as [Hy1 Hy2].
set (y := round (q * inject_Z side)) in *.
set (F := a * side / b).
pose proof (Z.div_mod (a * side) b ltac:(lia)) as Hdm.
pose proof (Z.mod_pos_bound (a * side) b Hb) as Hmod. fold F in Hdm.
assert (HF : F < side) by (apply Z.div_lt_upper_bound; nia).
assert (HF0 : 0 <= F) by (apply Z.div_pos; nia).
set (B := inject_Z b) in *. set (S := inject_Z side) in *.
assert (EA : (A * B == inject_Z a)%Q) by (unfold A; field; lra).
assert (HM1 : (B * inject_Z F <= A * B * S)%Q).
{ rewrite EA. unfold B, S. rewrite <- !inject_Z_mult, <- Zle_Qle. lia. }
assert (HM2 : (A * B * S + 1 <= B * inject_Z F + B)%Q).
{ rewrite EA. unfold B, S. change 1%Q with (inject_Z 1).
  rewrite <- !inject_Z_mult, <- !inject_Z_plus.
  rewrite <- Zle_Qle. lia. }
assert (HBS : (B * S <= inject_Z (2 ^ 51))%Q).
{ unfold B, S. rewrite <- inject_Z_mult, <- Zle_Qle. lia. }
assert (HFS : (inject_Z F + 1 <= S)%Q).
{ unfold S. change 1%Q with (inject_Z 1).
  rewrite <- inject_Z_plus, <- Zle_Qle. lia. }
assert (HFq : (0 <= inject_Z F)%Q) by (apply inject_Z_nonneg; lia).
assert (HU : (ulp_half == 1 # 9007199254740992)%Q) by reflexivity.
set (U := ulp_half) in *.
assert (E51 : (inject_Z (2 ^ 51) == 2251799813685248)%Q) by reflexivity.
set (X := (A * S)%Q).
assert (HX0 : (0 <= X)%Q) by (unfold X; apply Qmult_le_0_compat; lra).
assert (HXS : (X <= S)%Q) by (unfold X; nra).
assert (Hup : (y <= X * (1 + U) * (1 + U))%Q).
{ apply Qle_trans with (q * S * (1 + U))%Q; [exact Hy2|].
  unfold X. assert (0 <= S * (1 + U))%Q by nra. nra. }
assert (Hlo : (X * (1 - U) * (1 - U) <= y)%Q).
{ apply Qle_trans with (q * S * (1 - U))%Q; [|exact Hy1].
  unfold X. assert (0 <= S * (1 - U))%Q by nra. nra. }
assert (HXB1 : (B * inject_Z F <= X * B)%Q) by (unfold X; nra).
assert (HXB2 : (X * B + 1 <= B * inject_Z F + B)%Q) by (unfold X; nra).
assert (HSB : (S * B <= 2251799813685248)%Q) by lra.
split.
- assert (inject_Z F <= X)%Q by nra.
  assert (X * (2 * U) <= 1)%Q by nra. nra.
- apply Qmult_lt_r with B; [lra|].
  assert (Hyb : (y * B <= X * B * ((1 + U) * (1 + U)))%Q) by nra.
  assert (Ht : (X * B * ((1 + U) * (1 + U)) < X * B + 1)%Q).
  { assert (X * B <= 2251799813685248)%Q by nra.
    assert (E : ((1 + U) * (1 + U)
                 == 1 + (18014398509481985 # 81129638414606681695789005144064))%Q).
    { rewrite HU. reflexivity. }
    rewrite E. lra. }
  nra.
Qed.

Lemma scaled_side_near :
0 <= a < b -> 1 <= side -> b * side <= 2 ^ 51 ->
exists n, Normalizer.scaled_side a b side = Ok n
  /\ a * side / b - 1 <= n <= a * side / b.
Proof.
intros Ha Hs Hbs.
assert (Hs53 : 0 <= side <= 2 ^ 53).
{ split; [lia|]. assert (2 ^ 51 < 2 ^ 53) by reflexivity. nia. }
rewrite scaled_side_eq by lia. rewrite round_side by exact Hs53.
destruct (scaled_value_bounds (conj (proj1 Ha) (Z.lt_le_incl _ _ (proj2 Ha)))
            ltac:(lia) Hs53) as [H0 _].
destruct (scaled_value_near Ha Hs Hbs) as [Hlo Hhi].
eexists. split; [reflexivity|]. rewrite py_int_nonneg by exact H0.
split.
- apply Z.le_trans with (Qfloor (inject_Z (a * side / b - 1)));
    [rewrite Qfloor_Z; lia|].
  apply Qfloor_resp_le.
  replace (a * side / b - 1) with (a * side / b + -1) by lia.
  rewrite inject_Z_plus. change (inject_Z (-1)) with (-1)%Q. lra.
- assert (Hlt : Qfloor (round (round (inject_Z a / inject_Z b)
                                * inject_Z side)) < a * side / b + 1).
  { rewrite Zlt_Qlt. eapply Qle_lt_trans; [apply Qfloor_le|].
    rewrite inject_Z_plus. exact Hhi. }
  lia.
Qed.
End ScaledSide.

Lemma slice_bounds_inside (n a b : Z) :
  0 <= a <= b -> b <= n -> Normalizer.slice_bounds n a b = (a, b).
Proof.
  intros Hab Hbn. unfold Normalizer.slice_bounds, Normalizer.slice_index.
  destruct (Z.ltb_spec a 0), (Z.ltb_spec b 0); try lia.
  f_equal; lia.
Qed.

(** An assignment to a slice that lies in the tensor, from a tensor of the
    shape of the slice. *)
Lemma assign_slice_inside {P : Type} (dst src : tensor P) (r0 r1 c0 c1 : Z) :
  0 <= r0 <= r1 -> r1 <= t_height dst ->
  0 <= c0 <= c1 -> c1 <= t_width dst ->
  t_height src = r1 - r0 -> t_width src = c1 - c0 ->
  exists t, Normalizer.assign_slice dst (r0, r1) (c0, c1) src = Ok t
    /\ t_height t = t_height dst /\ t_width t = t_width dst
    /\ forall i j,
         t_at t i j
         = if (r0 <=? i) && (i <? r1) && (c0 <=? j) && (j <? c1)
           then t_at src (i - r0) (j - c0) else t_at dst i j.
Proof.
  intros Hr Hr1 Hc Hc1 Hh Hw. unfold Normalizer.assign_slice. cbn [fst snd].
  rewrite (slice_bounds_inside _ _ _ Hr Hr1).
  rewrite (slice_bounds_inside _ _ _ Hc Hc1).
  unfold Normalizer.broadcastable. rewrite Hh, Hw, !Z.eqb_refl. simpl.
  eexists. split; [reflexivity|]. simpl. repeat split.
Qed.

Lemma zeros_ok {P : Type} (zero : P) (side : Z) :
  0 <= side ->
  Normalizer.zeros zero side = Ok (Tensor side side (fun _ _ => zero)).
Proof.
  intros Hs. unfold Normalizer.zeros.
  destruct (Z.ltb_spec side 0); [lia|reflexivity].
Qed.

(** Padding a tensor whose longer side is [side]. *)
Lemma pad_to_square_letterbox {Image P : Type} `{ImageBackend Image P}
    (pixel_values : tensor P) (side : Z) :
  0 <= t_height pixel_values <= side -> 0 <= t_width pixel_values <= side ->
  Z.max (t_height pixel_values) (t_width pixel_values) = side ->
  let off_r := (side - t_height pixel_values) / 2 in
  let off_c := (side - t_width pixel_values) / 2 in
  exists tile, Normalizer.pad_to_square pixel_values side = Ok tile
    /\ t_height tile = side /\ t_width tile = side
    /\ forall i j,
         t_at tile i j
         = if (off_r <=? i) && (i <? off_r + t_height pixel_values)
              && (off_c <=? j) && (j <? off_c + t_width pixel_values)
           then t_at pixel_values (i - off_r) (j - off_c)
           else pixel_zero.
Proof.
  intros Hh Hw Hmax off_r off_c. unfold Normalizer.pad_to_square.
  rewrite zeros_ok by lia. cbn [bind].
  set (nh := t_height pixel_values) in *.
  set (nw := t_width pixel_values) in *.
  set (sq := Tensor side side (fun _ _ => pixel_zero)).
  destruct (Z.eqb_spec nh nw) as [E|NE].
  - assert (nh = side /\ nw = side) as [Eh Ew] by lia.
    destruct (assign_slice_inside sq pixel_values 0 side 0 side)
      as (t & -> & Ht & Hwd & Hat); simpl; try lia.
    exists t. repeat split; try assumption.
    intros i j. rewrite Hat. subst off_r off_c. rewrite Eh, Ew.
    rewrite Z.sub_diag. reflexivity.
  - destruct (Z.gtb_spec nh nw) as [Hgt|Hle].
    + assert (Eh : nh = side) by lia.
      destruct (assign_slice_inside sq pixel_values 0 side
                  ((side - nw) / 2) ((side - nw) / 2 + nw))
        as (t & -> & Ht & Hwd & Hat); simpl; fold nh nw;
        try (pose proof (Z.div_pos (side - nw) 2);
             pose proof (Z.mul_div_le (side - nw) 2); lia).
      exists t. repeat split; try assumption.
      intros i j. rewrite Hat. subst off_r off_c. rewrite Eh.
      rewrite Z.sub_diag. reflexivity.
    + assert (Ew : nw = side) by lia.
      destruct (assign_slice_inside sq pixel_values
                  ((side - nh) / 2) ((side - nh) / 2 + nh) 0 side)
        as (t & -> & Ht & Hwd & Hat); simpl; fold nh nw;
        try (pose proof (Z.div_pos (side - nh) 2);
             pose proof (Z.mul_div_le (side - nh) 2); lia).
      exists t. repeat split; try assumption.
      intros i j. rewrite Hat. subst off_r off_c. rewrite Ew.
      rewrite Z.sub_diag. reflexivity.
Qed.

(** The size asked of the image processor: the side for the longer side of
    the image, the scaled side for the other. *)
Lemma new_size_ok (w h side : Z) :
  0 <= w -> 0 <= h -> 1 <= side <= 2 ^ 53 ->
  exists nh nw, Normalizer.new_size w h side = Ok (nh, nw)
    /\ 0 <= nh <= side /\ 0 <= nw <= side /\ Z.max nh nw = side
    /\ (w = h -> nh = side /\ nw = side)
    /\ (w > h -> nw = side /\ Normalizer.scaled_side h w side = Ok nh)
    /\ (w < h -> nh = side /\ Normalizer.scaled_side w h side = Ok nw).
Proof.
  intros Hw Hh Hs. unfold Normalizer.new_size.
  destruct (Z.eqb_spec w h) as [E|NE].
  - exists side, side. split; [reflexivity|]. repeat split; lia.
  - destruct (Z.gtb_spec w h) as [Hgt|Hle].
    + destruct (scaled_side_bounds h w side) as (n & Hn & Hb); try lia.
      rewrite Hn. cbn [bind]. exists n, side.
      split; [reflexivity|]. repeat split; lia.
    + destruct (scaled_side_bounds w h side) as (n & Hn & Hb); try lia.
      rewrite Hn. cbn [bind]. exists side, n.
      split; [reflexivity|]. repeat split; lia.
Qed.

(** C8. For a crop of [w >= 1] by [h >= 1] pixels and a side
    [1 <= side <= 2 ^ 53], when the image processor returns a tensor of the
    size it is asked for, [_preprocess] asks for a size whose longer side is
    [side] and whose shorter side is the scaled side that the interpreter
    computes, [int(short / long * side)] in binary64 arithmetic: a number
    between 0 and [side] that keeps the aspect ratio, the floor of
    [short * side / long] or one less (for [long * side <= 2 ^ 51]).  It
    returns a tile of [side] by [side]: the resized crop is at the offset
    [(side - short_side) // 2] along the shorter axis, and at the offset 0
    along the other; the rest is zero.  The padding after the crop is the
    padding before it, plus one when [side - short_side] is odd.  A square
    crop fills the tile. *)
Theorem preprocess_letterbox {Image P : Type} `{ImageBackend Image P}
    (img : Image) (w h side : Z) :
  img_size img = (w, h) -> 1 <= w -> 1 <= h -> 1 <= side <= 2 ^ 53 ->
  (forall nh nw, t_height (processor_preprocess img nh nw) = nh
                 /\ t_width (processor_preprocess img nh nw) = nw) ->
  exists nh nw tile,
    Normalizer.new_size w h side = Ok (nh, nw)
    /\ Normalizer._preprocess img side = Ok tile
    /\ Z.max nh nw = side /\ 0 <= nh <= side /\ 0 <= nw <= side
    /\ (w = h -> nh = side /\ nw = side)
    /\ (w > h ->
        nw = side /\ Normalizer.scaled_side h w side = Ok nh
        /\ (w * side <= 2 ^ 51 -> h * side / w - 1 <= nh <= h * side / w))
    /\ (w < h ->
        nh = side /\ Normalizer.scaled_side w h side = Ok nw
        /\ (h * side <= 2 ^ 51 -> w * side / h - 1 <= nw <= w * side / h))
    /\ t_height tile = side /\ t_width tile = side
    /\ (let off_r := (side - nh) / 2 in
        let off_c := (side - nw) / 2 in
        (forall i j,
           t_at tile i j
           = if (off_r <=? i) && (i <? off_r + nh)
                && (off_c <=? j) && (j <? off_c + nw)
             then t_at (processor_preprocess img nh nw) (i - off_r)
                    (j - off_c)
             else pixel_zero)
        /\ 0 <= off_r /\ 0 <= off_c
        /\ side - nh - off_r = off_r + (side - nh) mod 2
        /\ side - nw - off_c = off_c + (side - nw) mod 2).
Proof.
  intros Hsize Hw Hh Hs Hshape.
  destruct (new_size_ok w h side ltac:(lia) ltac:(lia) Hs)
    as (nh & nw & Hnew & Hnh & Hnw & Hmax & Heq & Hgt & Hlt).
  destruct (Hshape nh nw) as [Eh Ew].
  destruct (pad_to_square_letterbox (processor_preprocess img nh nw) side)
    as (tile & Hpad & Hth & Htw & Hat); rewrite ?Eh, ?Ew; try lia.
  exists nh, nw, tile.
  split; [exact Hnew|].
  split.
  { unfold Normalizer._preprocess. rewrite Hsize, Hnew. exact Hpad. }
  split; [exact Hmax|split; [exact Hnh|split; [exact Hnw|]]].
  split; [exact Heq|].
  split.
  { intros E. destruct (Hgt E) as [-> Hn]. repeat split; try exact Hn.
    - destruct (scaled_side_near h w side) as (n & Hn' & Hb); try lia.
      rewrite Hn in Hn'. injection Hn' as <-. lia.
    - destruct (scaled_side_near h w side) as (n & Hn' & Hb); try lia.
      rewrite Hn in Hn'. injection Hn' as <-. lia. }
  split.
  { intros E. destruct (Hlt E) as [-> Hn]. repeat split; try exact Hn.
    - destruct (scaled_side_near w h side) as (n & Hn' & Hb); try lia.
      rewrite Hn in Hn'. injection Hn' as <-. lia.
    - destruct (scaled_side_near w h side) as (n & Hn' & Hb); try lia.
      rewrite Hn in Hn'. injection Hn' as <-. lia. }
  split; [exact Hth|split; [exact Htw|]].
  cbv zeta. rewrite Eh, Ew in Hat.
  split; [exact Hat|].
  pose proof (Z.div_mod (side - nh) 2 ltac:(lia)).
  pose proof (Z.div_mod (side - nw) 2 ltac:(lia)).
  pose proof (Z.div_pos (side - nh) 2).
  pose proof (Z.div_pos (side - nw) 2).
  repeat split; lia.
Qed.

(** The crop of 448 by 61 pixels and the side 448: [61 / 448 * 448] is
    [60.999999999999993] in binary64, and the scaled side is 60. *)
Lemma preprocess_letterbox_witness :
  Normalizer.scaled_side 61 448 448 = Ok 60
  /\ exists nh nw tile,
    Normalizer.new_size 448 61 448 = Ok (nh, nw)
    /\ Normalizer._preprocess (H := Demo.backend) (448, 61) 448 = Ok tile
    /\ Z.max nh nw = 448 /\ 0 <= nh <= 448 /\ 0 <= nw <= 448
    /\ (448 = 61 -> nh = 448 /\ nw = 448)
    /\ (448 > 61 ->
        nw = 448 /\ Normalizer.scaled_side 61 448 448 = Ok nh
        /\ (448 * 448 <= 2 ^ 51 ->
            61 * 448 / 448 - 1 <= nh <= 61 * 448 / 448))
    /\ (448 < 61 ->
        nh = 448 /\ Normalizer.scaled_side 448 61 448 = Ok nw
        /\ (61 * 448 <= 2 ^ 51 ->
            448 * 448 / 61 - 1 <= nw <= 448 * 448 / 61))
    /\ t_height tile = 448 /\ t_width tile = 448
    /\ (let off_r := (448 - nh) / 2 in
        let off_c := (448 - nw) / 2 in
        (forall i j,
           t_at tile i j
           = if (off_r <=? i) && (i <? off_r + nh)
                && (off_c <=? j) && (j <? off_c + nw)
             then t_at (processor_preprocess (ImageBackend := Demo.backend)
                          (448, 61) nh nw) (i - off_r) (j - off_c)
             else pixel_zero (ImageBackend := Demo.backend))
        /\ 0 <= off_r /\ 0 <= off_c
        /\ 448 - nh - off_r = off_r + (448 - nh) mod 2
        /\ 448 - nw - off_c = off_c + (448 - nw) mod 2).
Proof.
  split; [vm_compute; reflexivity|].
  apply (preprocess_letterbox (H := Demo.backend) (448, 61) 448 61 448);
    try reflexivity; try lia.
  intros nh nw. split; reflexivity.
Defined.

(** ** [merge_multimodal] *)

Lemma length_slice {A : Type} (l : list A) (a b : Z) :
  0 <= a <= b -> b <= Z.of_nat (length l) ->
  Z.of_nat (length (Composer.slice l a b)) = b - a.
Proof.
  intros Hab Hb. unfold Composer.slice.
  rewrite length_firstn, length_skipn. lia.
Qed.

Lemma length_slice_from {A : Type} (l : list A) (a : Z) :
  0 <= a <= Z.of_nat (length l) ->
  Z.of_nat (length (Composer.slice_from l a)) = Z.of_nat (length l) - a.
Proof.
  intros Ha. unfold Composer.slice_from. rewrite length_skipn. lia.
Qed.

Lemma total_length_concat {A : Type} (groups : list (list A)) :
  Z.of_nat (length (concat groups)) = total_length groups.
Proof.
  unfold total_length.
  induction groups as [|g groups IH]; simpl; [reflexivity|].
  rewrite length_app, Nat2Z.inj_add, IH. reflexivity.
Qed.

Lemma total_length_app {A : Type} (g1 g2 : list (list A)) :
  total_length (g1 ++ g2) = total_length g1 + total_length g2.
Proof. unfold total_length. now rewrite map_app, zsum_app. Qed.

Lemma total_length_cons {A : Type} (g : list A) (groups : list (list A)) :
  total_length (g :: groups) = Z.of_nat (length g) + total_length groups.
Proof. reflexivity. Qed.

Lemma total_length_snoc {A : Type} (groups : list (list A)) (g : list A) :
  total_length (groups ++ [g]) = total_length groups + Z.of_nat (length g).
Proof. rewrite total_length_app. unfold total_length. simpl. lia. Qed.

Section ComposerFacts.
Context {Tile SoftToken : Type}.
Variables IGNORE_INDEX IMAGE_TOKEN_INDEX : Z.
Variable wte : Z -> embedding.

Lemma positions_increasing (i : Z) (ids : list Z) :
increasing_between (i - 1) (i + Z.of_nat (length ids))
(Composer.image_token_positions IMAGE_TOKEN_INDEX i ids).
Proof.
revert i. induction ids as [|t rest IH]; intros i; simpl; [exact I|].
assert (Hmono : forall prev, prev <= i ->
increasing_between prev (i + Z.pos (Pos.of_succ_nat (length rest)))
(Composer.image_token_positions IMAGE_TOKEN_INDEX (i + 1) rest)).
{ intros prev Hprev. specialize (IH (i + 1)).
replace (i + 1 + Z.of_nat (length rest))
with (i + Z.pos (Pos.of_succ_nat (length rest))) in IH by lia.
destruct (Composer.image_token_positions IMAGE_TOKEN_INDEX (i + 1) rest)
as [|p ps]; [exact I|].
simpl in *. destruct IH as [Hp Hps]. split; [lia|exact Hps]. }
destruct (t =? IMAGE_TOKEN_INDEX).
- simpl. split; [lia|]. apply Hmono. lia.
- apply Hmono. lia.
Qed.

Lemma length_positions (i : Z) (ids : list Z) :
length (Composer.image_token_positions IMAGE_TOKEN_INDEX i ids)
= count_token IMAGE_TOKEN_INDEX ids.
Proof.
revert i. unfold count_token.
induction ids as [|t rest IH]; intros i; simpl; [reflexivity|].
rewrite (Z.eqb_sym IMAGE_TOKEN_INDEX t).
destruct (t =? IMAGE_TOKEN_INDEX); simpl; now rewrite IH.
Qed.

Lemma length_text_embed_of (ids : list Z) :
length (Composer.text_embed_of IMAGE_TOKEN_INDEX wte ids) = length ids.
Proof. unfold Composer.text_embed_of. apply length_map. Qed.

(** The loop over the positions: how much each list of parts grows. *)
Lemma merge_loop_lengths (text_embed : list embedding) (text_label : list Z)
(text_attention_mask : list bool) (ve : list (list embedding))
(vl : list (list Z)) (n : Z) :
Z.of_nat (length text_embed) = n -> Z.of_nat (length text_label) = n ->
Z.of_nat (length text_attention_mask) = n ->
map (@length embedding) ve = map (@length Z) vl ->
forall positions index prev e m l,
-1 <= prev -> increasing_between prev n positions ->
(index + length positions <= length ve)%nat ->
exists e' m' l' prev',
Composer.merge_loop text_embed text_label text_attention_mask (Some ve)
(Some vl) positions index prev (e, m, l) = Ok (e', m', l', prev')
/\ prev <= prev' < Z.max n (prev + 1)
/\ let grown :=
 prev' - prev - Z.of_nat (length positions)
 + total_length (firstn (length positions) (skipn index ve)) in
 total_length e' = total_length e + grown
 /\ total_length m' = total_length m + grown
 /\ total_length l' = total_length l + grown.
Proof.
intros He Hl Hm Hshape.
assert (Hlen : length ve = length vl).
{ apply (f_equal (@length nat)) in Hshape.
now rewrite !length_map in Hshape. }
induction positions as [|p rest IH]; intros index prev e m l Hprev Hinc Hidx.
- exists e, m, l, prev. simpl. split; [reflexivity|].
split; [lia|]. unfold total_length. simpl. lia.
- simpl in Hinc, Hidx. destruct Hinc as [Hp Hinc].
assert (Hve : exists g, nth_error ve index = Some g).
{ destruct (nth_error ve index) eqn:E; [eauto|].
apply nth_error_None in E. lia. }
destruct Hve as (g & Hg).
assert (Hvl : exists g', nth_error vl index = Some g'
 /\ length g' = length g).
{ destruct (nth_error vl index) as [g'|] eqn:E.
- exists g'. split; [reflexivity|].
pose proof (map_nth_error (@length embedding) _ _ Hg) as H1.
pose proof (map_nth_error (@length Z) _ _ E) as H2.
rewrite Hshape in H1. congruence.
- apply nth_error_None in E.
assert (index < length ve)%nat by (apply nth_error_Some; congruence).
lia. }
destruct Hvl as (g' & Hg' & Hgg).
cbn [Composer.merge_loop]. unfold Composer.visual_index, Processor.index.
rewrite Hg, Hg'. cbn [bind].
destruct (IH (S index) p
((e ++ [Composer.slice text_embed (prev + 1) p]) ++ [g])
((m ++ [Composer.slice text_attention_mask (prev + 1) p])
 ++ [map (fun _ => true) g'])
((l ++ [Composer.slice text_label (prev + 1) p]) ++ [g']))
as (e' & m' & l' & prev' & Hrun & Hb & Hgrow); [lia|exact Hinc|lia|].
exists e', m', l', prev'. split; [exact Hrun|]. split; [lia|].
cbv zeta in *. destruct Hgrow as (Ge & Gm & Gl).
rewrite Ge, Gm, Gl, !total_length_snoc, length_map.
rewrite !length_slice by lia.
assert (Hsk : skipn index ve = g :: skipn (S index) ve).
{ clear -Hg. revert index Hg. induction ve as [|x ve IH]; intros index Hg.
- destruct index; discriminate.
- destruct index as [|index]; simpl in *.
+ now injection Hg as ->.
+ now apply IH. }
rewrite Hsk. cbn [length firstn]. rewrite total_length_cons.
rewrite Hgg. lia.
Qed.
End ComposerFacts.

Lemma merge_parts_lengths (IMAGE_TOKEN_INDEX : Z) (wte : Z -> embedding)
    (text_input_id text_label : list Z) (text_attention_mask : list bool)
    (ve : list (list embedding)) (vl : list (list Z)) :
  length text_label = length text_input_id ->
  length text_attention_mask = length text_input_id ->
  map (@length embedding) ve = map (@length Z) vl ->
  count_token IMAGE_TOKEN_INDEX text_input_id = length ve ->
  exists e m l,
    Composer.merge_parts text_input_id
      (Composer.text_embed_of IMAGE_TOKEN_INDEX wte text_input_id)
      text_label text_attention_mask (Some ve) (Some vl)
      (Composer.image_token_positions IMAGE_TOKEN_INDEX 0 text_input_id)
    = Ok (e, m, l)
    /\ length m = length e /\ length l = length e
    /\ Z.of_nat (length e)
       = Z.of_nat (length text_input_id)
         - Z.of_nat (count_token IMAGE_TOKEN_INDEX text_input_id)
         + total_length ve.
Proof.
  intros Hl Hm Hshape Hcount. unfold Composer.merge_parts.
  set (n := Z.of_nat (length text_input_id)).
  pose proof (positions_increasing IMAGE_TOKEN_INDEX 0 text_input_id) as Hinc.
  pose proof (length_positions IMAGE_TOKEN_INDEX 0 text_input_id) as Hlp.
  simpl in Hinc. fold n in Hinc.
  destruct (merge_loop_lengths
              (Composer.text_embed_of IMAGE_TOKEN_INDEX wte text_input_id)
              text_label text_attention_mask ve vl n)
    with (positions :=
            Composer.image_token_positions IMAGE_TOKEN_INDEX 0 text_input_id)
         (index := O) (prev := -1)
         (e := @nil (list embedding)) (m := @nil (list bool))
         (l := @nil (list Z))
    as (e' & m' & l' & prev' & Hrun & Hb & Ge & Gm & Gl);
    try (rewrite ?length_text_embed_of; subst n; lia); try assumption.
  rewrite Hrun. cbn [bind].
  rewrite Hlp, Hcount in Ge, Gm, Gl. simpl skipn in *.
  rewrite firstn_all in Ge, Gm, Gl.
  change (total_length []) with 0 in Ge, Gm, Gl.
  fold n. destruct (Z.ltb_spec (prev' + 1) n) as [Hlt|Hge].
  - eexists _, _, _. split; [reflexivity|].
    rewrite <- !Nat2Z.inj_iff, !total_length_concat, !total_length_snoc.
    rewrite !length_slice_from
      by (rewrite ?length_text_embed_of; subst n; lia).
    rewrite length_text_embed_of, Hl, Hm, Ge, Gm, Gl, Hcount. fold n.
    repeat split; lia.
  - eexists _, _, _. split; [reflexivity|].
    rewrite <- !Nat2Z.inj_iff, !total_length_concat.
    rewrite Ge, Gm, Gl, Hcount. repeat split; lia.
Qed.

(** C2. For a sample whose text labels and attention mask have the length
    of its token sequence, whose visual labels have the shape of its visual
    embedding groups, and in which the number of image tokens is the number
    of visual embedding groups, [merge_multimodal] computes (before padding
    and truncation) an embedding sequence, an attention mask and a label
    sequence of one and the same length: the length of the text, minus the
    number of image tokens, plus the lengths of the visual groups. *)
Theorem merged_sample_lengths (IMAGE_TOKEN_INDEX : Z) (wte : Z -> embedding)
    (training : bool) (text_input_id text_label : list Z)
    (text_attention_mask : list bool)
    (ve : list (list embedding)) (vl : list (list Z)) :
  length text_label = length text_input_id ->
  length text_attention_mask = length text_input_id ->
  map (@length embedding) ve = map (@length Z) vl ->
  count_token IMAGE_TOKEN_INDEX text_input_id = length ve ->
  exists e m l,
    Composer.merge_sample IMAGE_TOKEN_INDEX wte training text_input_id
      text_label text_attention_mask (Some ve) (Some vl) = Ok (e, m, l)
    /\ length m = length e /\ length l = length e
    /\ Z.of_nat (length e)
       = Z.of_nat (length text_input_id)
         - Z.of_nat (count_token IMAGE_TOKEN_INDEX text_input_id)
         + total_length ve.
Proof.
  intros Hl Hm Hshape Hcount. unfold Composer.merge_sample.
  destruct (Nat.ltb_spec 0
    (length (Composer.image_token_positions IMAGE_TOKEN_INDEX 0
               text_input_id))) as [Hpos|Hzero].
  - now apply merge_parts_lengths.
  - rewrite length_positions in Hzero.
    assert (Hve : ve = []) by (destruct ve; [reflexivity|simpl in *; lia]).
    subst ve. rewrite Hcount. change (total_length []) with 0.
    destruct training; simpl.
    + eexists _, _, _. split; [reflexivity|].
      unfold Composer.add_scalar.
      rewrite length_map, length_text_embed_of, Hl, Hm. repeat split; lia.
    + eexists _, _, _. split; [reflexivity|].
      rewrite length_text_embed_of, Hl, Hm. repeat split; lia.
Qed.

Lemma merged_sample_lengths_witness :
  exists e m l,
    Composer.merge_sample (-200) (fun t => [inject_Z t; 1%Q]) true
      [5; -200; 6; 7; -200] [5; -100; 6; 7; -100]
      [true; true; true; true; true]
      (Some [[[1%Q; 2%Q]; [3%Q; 4%Q]]; [[5%Q; 6%Q]]])
      (Some [[-100; -100]; [-100]]) = Ok (e, m, l)
    /\ length m = length e /\ length l = length e
    /\ Z.of_nat (length e)
       = Z.of_nat (length [5; -200; 6; 7; -200])
         - Z.of_nat (count_token (-200) [5; -200; 6; 7; -200])
         + total_length [[[1%Q; 2%Q]; [3%Q; 4%Q]]; [[5%Q; 6%Q]]].
Proof.
  apply (merged_sample_lengths (-200) (fun t => [inject_Z t; 1%Q]) true);
    reflexivity.
Defined.

(** *** The sample without image token in training *)

Lemma Qsum_zeros (l : list Q) :
  (Tiling.Qsum (map (fun x => x * 0) l) == 0)%Q.
Proof.
  induction l as [|x l IH]; [reflexivity|].
  cbn [map]. rewrite Qsum_cons, IH. ring.
Qed.

Lemma zero_term_is_zero (ve : list (list embedding)) :
  exists s, Composer.zero_term (Some ve) = Ok s /\ (s == 0)%Q.
Proof. eexists. split; [reflexivity|apply Qsum_zeros]. Qed.

Lemma add_scalar_zero (s : Q) (x : list embedding) :
  (s == 0)%Q -> same_values (Composer.add_scalar s x) x.
Proof.
  intros Hs. unfold same_values, Composer.add_scalar.
  induction x as [|v x IH]; simpl; constructor; [|exact IH].
  induction v as [|q v IHv]; simpl; constructor; [|exact IHv].
  rewrite Hs. ring.
Qed.


(** * The covering ratio in binary64 arithmetic

    With the items added from left to right, no rounding takes the covering
    ratio above 1 when the image has at most [2 ^ 53] pixels: the roundings
    are monotone and the areas of the boxes are integers that binary64
    holds. *)

Section Ratio64.
Import Binary64.






End Ratio64.


Section Ratio64Sum.
Import Binary64.



End Ratio64Sum.

(** * Further properties of the tiling planner *)


























(** * Further properties of the placeholders and of [preprocess_image] *)








Lemma mapM_nth {A B : Type} (f : A -> result B) (l : list A) (ys : list B)
    (k : nat) (x : A) :
  mapM f l = Ok ys -> nth_error l k = Some x ->
  exists y, nth_error ys k = Some y /\ f x = Ok y.
Proof.
  revert ys k. induction l as [|a l IH]; intros ys k Hrun Hk.
  - destruct k; discriminate.
  - simpl in Hrun. apply bind_ok in Hrun as (y & Hy & Hrun).
    apply bind_ok in Hrun as (ys' & Hrec & Hret). injection Hret as <-.
    destruct k as [|k]; simpl in *.
    + injection Hk as <-. now exists y.
    + now apply (IH ys').
Qed.



(** * Further properties of [OvisProcessor.__call__] *)

















(** * Further properties of [merge_multimodal] *)





Section SpliceFacts.
Variable IMAGE_TOKEN_INDEX : Z.
Variables (te : list embedding) (tl : list Z) (tm : list bool).
Variables (ve : list (list embedding)) (vl : list (list Z)).
Variable n : nat.
Hypothesis Hte : length te = n.
Hypothesis Htl : length tl = n.
Hypothesis Htm : length tm = n.


End SpliceFacts.

Lemma same_values_refl (x : list embedding) : same_values x x.
Proof.
  unfold same_values. induction x as [|v x IH]; constructor; [|exact IH].
  induction v as [|q v IHv]; constructor; [reflexivity|exact IHv].
Qed.










Lemma pad_truncate_nonempty {A : Type} (multimodal_max_length : Z) (pad : A)
    (seqs : list (list A)) :
  seqs <> [] ->
  Composer.pad_truncate multimodal_max_length pad seqs
  = Ok (map (fun l =>
          Composer.truncate (l ++ repeat pad (longest seqs - length l))
            multimodal_max_length) seqs).
Proof. destruct seqs; [congruence|reflexivity]. Qed.








Section VisualFacts.
Context {Tile SoftToken : Type}.
Variable IGNORE_INDEX : Z.
Variable visual_tokenizer : list Tile -> list (list SoftToken).
Variable vte : SoftToken -> embedding.
Variable argmax : SoftToken -> Z.

End VisualFacts.










Section InferenceFacts.
Context {Tile SoftToken : Type}.
Variables IGNORE_INDEX IMAGE_TOKEN_INDEX : Z.
Variable wte : Z -> embedding.
Variable visual_tokenizer : list Tile -> list (list SoftToken).
Variable vte : SoftToken -> embedding.
Variable argmax : SoftToken -> Z.
Variable hidden_size : nat.
Variable multimodal_max_length : Z.

Let body (s : list Z * list Z * list bool * option (list (list embedding))
          * option (list (list Z)) * option (list (list Z)))
: result Composer.merged :=
let '(text_input_id, text_label, text_attention_mask, visual_embed, _,
    visual_label) := s in
Composer.merge_sample IMAGE_TOKEN_INDEX wte false text_input_id text_label
text_attention_mask visual_embed visual_label.



End InferenceFacts.


(** * The objects of [merge_multimodal] *)

Lemma deref_alloc (hp : Composer.heap) (v : list embedding) :
  Composer.deref (hp ++ [Composer.Seq v]) (length hp) = v.
Proof.
  unfold Composer.deref. now rewrite nth_error_app2, Nat.sub_diag by lia.
Qed.

Lemma deref_update_same (hp : Composer.heap) (v : list embedding)
    (f : list embedding -> list embedding) :
  Composer.deref (Composer.update (hp ++ [Composer.Seq v]) (length hp) f)
    (length hp)
  = f v.
Proof.
  unfold Composer.deref. induction hp as [|x hp IH]; simpl; [reflexivity|].
  exact IH.
Qed.

Lemma nth_error_update_other (hp : Composer.heap) (r r' : Composer.ref)
    (f : list embedding -> list embedding) :
  r' <> r -> nth_error (Composer.update hp r f) r' = nth_error hp r'.
Proof.
  revert r r'.
  induction hp as [|x hp IH]; intros r r' Hne; simpl;
    [now destruct r|].
  destruct r as [|r], r' as [|r']; simpl; try reflexivity; try congruence.
  apply IH. congruence.
Qed.

Lemma length_update (hp : Composer.heap) (r : Composer.ref)
    (f : list embedding -> list embedding) :
  length (Composer.update hp r f) = length hp.
Proof.
  revert r. induction hp as [|x hp IH]; intros r; simpl; [now destruct r|].
  destruct r; simpl; [reflexivity|now rewrite IH].
Qed.

(** The body of the loop on objects agrees with the body on values. *)
Lemma merge_sample_obj_spec (hp : Composer.heap) (IMAGE_TOKEN_INDEX : Z)
    (wte : Z -> embedding) (training : bool)
    (text_input_id text_label : list Z) (text_attention_mask : list bool)
    (visual_embed : option (list (list embedding)))
    (visual_label : option (list (list Z))) :
  match Composer.merge_sample IMAGE_TOKEN_INDEX wte training text_input_id
          text_label text_attention_mask visual_embed visual_label with
  | Raise e =>
      Composer.merge_sample_obj IMAGE_TOKEN_INDEX wte hp training
        text_input_id text_label text_attention_mask visual_embed
        visual_label = Raise e
  | Ok (e, m, l) =>
      exists hp' o,
        Composer.merge_sample_obj IMAGE_TOKEN_INDEX wte hp training
          text_input_id text_label text_attention_mask visual_embed
          visual_label = Ok (hp', o)
        /\ Composer.deref hp' (Composer.obj_input_embed o) = e
        /\ Composer.obj_attention_mask o = m
        /\ Composer.obj_label o = l
        /\ Composer.obj_text_embed o = length hp
        /\ (length hp < length hp')%nat
        /\ (Composer.obj_input_embed o < length hp')%nat
        /\ (forall r, (r < length hp)%nat ->
              nth_error hp' r = nth_error hp r)
        /\ (count_token IMAGE_TOKEN_INDEX text_input_id = O ->
            Composer.obj_input_embed o = Composer.obj_text_embed o)
        /\ ((0 < count_token IMAGE_TOKEN_INDEX text_input_id)%nat ->
            Composer.obj_input_embed o = S (length hp)
            /\ Composer.deref hp' (Composer.obj_text_embed o)
               = Composer.text_embed_of IMAGE_TOKEN_INDEX wte text_input_id)
  end.
Proof.
  unfold Composer.merge_sample, Composer.merge_sample_obj, Composer.alloc.
  rewrite length_positions.
  set (te := Composer.text_embed_of IMAGE_TOKEN_INDEX wte text_input_id).
  assert (Hd : Composer.deref (hp ++ [Composer.Seq te]) (length hp) = te)
    by apply deref_alloc.
  assert (Hold : forall (c : Composer.cell) r, (r < length hp)%nat ->
            nth_error (hp ++ [c]) r = nth_error hp r).
  { intros c r Hr. now rewrite nth_error_app1. }
  destruct (Nat.ltb_spec 0 (count_token IMAGE_TOKEN_INDEX text_input_id))
    as [Hpos|Hzero].
  - rewrite Hd.
    destruct (Composer.merge_parts text_input_id te text_label
                text_attention_mask visual_embed visual_label
                (Composer.image_token_positions IMAGE_TOKEN_INDEX 0
                   text_input_id)) as [[[e m] l]|err]; [|reflexivity].
    cbn [bind]. eexists _, _. split; [reflexivity|].
    cbn [Composer.obj_input_embed Composer.obj_text_embed
         Composer.obj_attention_mask Composer.obj_label].
    rewrite !length_app. cbn [length].
    split.
    { replace (length hp + 1)%nat with (length (hp ++ [Composer.Seq te]))
        by (rewrite length_app; simpl; lia).
      apply deref_alloc. }
    split; [reflexivity|split; [reflexivity|split; [reflexivity|]]].
    split; [lia|split; [lia|]].
    split.
    { intros r Hr. rewrite nth_error_app1 by (rewrite length_app; simpl; lia).
      now apply Hold. }
    split; [lia|]. intros _. split; [lia|].
    unfold Composer.deref.
    rewrite nth_error_app1 by (rewrite length_app; simpl; lia).
    exact Hd.
  - destruct training.
    + destruct (Composer.zero_term visual_embed) as [s|err]; [|reflexivity].
      cbn [bind]. eexists _, _. split; [reflexivity|].
      cbn [Composer.obj_input_embed Composer.obj_text_embed
           Composer.obj_attention_mask Composer.obj_label].
      rewrite length_update, length_app. cbn [length].
      split; [apply deref_update_same|].
      split; [reflexivity|split; [reflexivity|split; [reflexivity|]]].
      split; [lia|split; [lia|]].
      split.
      { intros r Hr. rewrite nth_error_update_other by lia. now apply Hold. }
      split; [reflexivity|lia].
    + eexists _, _. split; [reflexivity|].
      cbn [Composer.obj_input_embed Composer.obj_text_embed
           Composer.obj_attention_mask Composer.obj_label].
      rewrite length_app. cbn [length].
      split; [exact Hd|].
      split; [reflexivity|split; [reflexivity|split; [reflexivity|]]].
      split; [lia|split; [lia|]].
      split; [intros r Hr; now apply Hold|].
      split; [reflexivity|lia].
Qed.

Lemma nth_error_zip6 {A B C D E F : Type} (a : list A) (b : list B)
    (c : list C) (d : list D) (e : list E) (f : list F) (k : nat)
    (x : A * B * C * D * E * F) :
  nth_error (Composer.zip6 a b c d e f) k = Some x ->
  nth_error a k = Some (fst (fst (fst (fst (fst x))))).
Proof.
  revert b c d e f k.
  induction a as [|a0 a IH]; intros [|b0 b] [|c0 c] [|d0 d] [|e0 e] [|f0 f] k;
    simpl; try (destruct k; discriminate).
  destruct k as [|k]; simpl.
  - now intros [= <-].
  - apply IH.
Qed.

Lemma same_values_app (a b c d : list embedding) :
  same_values a b -> same_values c d -> same_values (a ++ c) (b ++ d).
Proof. apply Forall2_app. Qed.

Lemma same_values_firstn (n : nat) (a b : list embedding) :
  same_values a b -> same_values (firstn n a) (firstn n b).
Proof.
  unfold same_values. intros H. revert n.
  induction H as [|x y a b Hxy _ IH]; intros [|n]; simpl; constructor;
    [exact Hxy|apply IH].
Qed.

Lemma same_values_truncate (a b : list embedding) (stop : Z) :
  same_values a b ->
  same_values (Composer.truncate a stop) (Composer.truncate b stop).
Proof.
  intros H. unfold Composer.truncate.
  assert (E : @length embedding a = @length embedding b)
    by exact (Forall2_length H).
  rewrite E. now apply same_values_firstn.
Qed.

(** The sample without image token, in training: the numbers of the text
    embedding. *)
Lemma merge_sample_zero_count (IMAGE_TOKEN_INDEX : Z) (wte : Z -> embedding)
    (text_input_id text_label : list Z) (text_attention_mask : list bool)
    (visual_embed : option (list (list embedding)))
    (visual_label : option (list (list Z)))
    (v : Composer.merged) :
  count_token IMAGE_TOKEN_INDEX text_input_id = O ->
  Composer.merge_sample IMAGE_TOKEN_INDEX wte true text_input_id text_label
    text_attention_mask visual_embed visual_label = Ok v ->
  same_values (fst (fst v))
    (Composer.text_embed_of IMAGE_TOKEN_INDEX wte text_input_id).
Proof.
  intros Hcount. unfold Composer.merge_sample.
  rewrite length_positions, Hcount. cbn [Nat.ltb Nat.leb].
  destruct visual_embed as [ve|]; [|discriminate].
  destruct (zero_term_is_zero ve) as (s & -> & Hs). cbn [bind].
  intros [= <-]. cbn [fst]. now apply add_scalar_zero.
Qed.

(** The loop over the samples on objects agrees with the loop on values.
    The text embedding of a sample is an object made by the loop, and the
    merged embedding of a sample without image token is that object. *)
Lemma merge_samples_obj_spec (IMAGE_TOKEN_INDEX : Z) (wte : Z -> embedding)
    (training : bool)
    (zs : list (list Z * list Z * list bool
                * option (list (list embedding))
                * option (list (list Z)) * option (list (list Z)))) :
  forall (hp : Composer.heap) (vals : list Composer.merged),
  mapM (fun s : list Z * list Z * list bool
                * option (list (list embedding))
                * option (list (list Z)) * option (list (list Z)) =>
          let '(text_input_id, text_label, text_attention_mask,
                visual_embed, _, visual_label) := s in
          Composer.merge_sample IMAGE_TOKEN_INDEX wte training text_input_id
            text_label text_attention_mask visual_embed visual_label) zs
  = Ok vals ->
  exists hp' objs,
    Composer.merge_samples_obj IMAGE_TOKEN_INDEX wte hp training zs
    = Ok (hp', objs)
    /\ (length hp <= length hp')%nat
    /\ (forall r, (r < length hp)%nat -> nth_error hp' r = nth_error hp r)
    /\ map (fun o => Composer.deref hp' (Composer.obj_input_embed o)) objs
       = map (fun m => fst (fst m)) vals
    /\ map Composer.obj_attention_mask objs = map (fun m => snd (fst m)) vals
    /\ map Composer.obj_label objs = map snd vals
    /\ Forall2 (fun o z =>
         (length hp <= Composer.obj_text_embed o < length hp')%nat
         /\ (count_token IMAGE_TOKEN_INDEX
               (fst (fst (fst (fst (fst z))))) = O ->
             Composer.obj_input_embed o = Composer.obj_text_embed o))
         objs zs.
Proof.
  induction zs as [|z zs IH]; intros hp vals Hrun; simpl in Hrun.
  - injection Hrun as <-. exists hp, []. simpl.
    repeat split; try reflexivity; try lia. constructor.
  - apply bind_ok in Hrun as (v & Hv & Hrun).
    apply bind_ok in Hrun as (vs & Hvs & Hret). injection Hret as <-.
    destruct z as [[[[[ids lab] mask] ve] vid] vl].
    pose proof (merge_sample_obj_spec hp IMAGE_TOKEN_INDEX wte training ids
                  lab mask ve vl) as Hspec.
    rewrite Hv in Hspec. destruct v as [[e m] l].
    destruct Hspec as (hp1 & o & Ho & He & Hm & Hl & Hte & Hlt & Hie & Hold
                       & Halias & _).
    destruct (IH hp1 vs Hvs)
      as (hp' & objs & Hobjs & Hle & Hold' & Hes & Hms & Hls & HF).
    exists hp', (o :: objs). cbn [Composer.merge_samples_obj].
    rewrite Ho. cbn [bind fst snd]. rewrite Hobjs. cbn [bind fst snd].
    split; [reflexivity|]. split; [lia|].
    split.
    { intros r Hr. rewrite Hold' by lia. now apply Hold. }
    cbn [map]. rewrite Hes, Hms, Hls, Hm, Hl. cbn [fst snd].
    split.
    { f_equal. unfold Composer.deref in *. now rewrite Hold' by exact Hie. }
    split; [reflexivity|split; [reflexivity|]].
    constructor.
    + cbn [fst]. split; [lia|exact Halias].
    + clear -HF Hlt. induction HF as [|o' z' objs' zs' [H1 H2] _ IH];
        constructor; [|exact IH].
      split; [lia|exact H2].
Qed.

(** C6. In training, for every batch on which [merge_multimodal] returns:
    the tensor of embeddings returned is a new object, made by the padding
    of the batch.  For every sample without image token, whatever its visual
    payload, the text embedding is an object made by the call, which holds
    the numbers of the text-only embedding (the term added in place, the sum
    of the payload multiplied by zero, is zero); the row of the sample in
    the tensor returned holds the same numbers, followed by the padding of
    the batch and cut at [multimodal_max_length]; and the tensor returned is
    not the object of the text embedding. *)
Theorem zero_sentinel_training_new_tensor {Tile SoftToken : Type}
    (IGNORE_INDEX IMAGE_TOKEN_INDEX : Z) (wte : Z -> embedding)
    (visual_tokenizer : list Tile -> list (list SoftToken))
    (vte : SoftToken -> embedding) (argmax : SoftToken -> Z)
    (hidden_size : nat) (multimodal_max_length : Z) (hp : Composer.heap)
    (text_input_ids : list (list Z)) (text_attention_masks : list (list bool))
    (text_labels : option (list (list Z)))
    (pixel_values : list (option (list Tile)))
    (visual_input_ids : list (option (list (list Z))))
    (batch_input_embeds : list (list embedding))
    (batch_labels : list (list Z)) (batch_attention_mask : list (list bool)) :
  Composer.merge_multimodal IGNORE_INDEX IMAGE_TOKEN_INDEX wte
    visual_tokenizer vte argmax hidden_size multimodal_max_length true
    text_input_ids text_attention_masks text_labels pixel_values
  = Ok (visual_input_ids, batch_input_embeds, batch_labels,
        batch_attention_mask) ->
  exists hp' objs r,
    Composer.merge_multimodal_obj IGNORE_INDEX IMAGE_TOKEN_INDEX wte
      visual_tokenizer vte argmax hidden_size multimodal_max_length hp true
      text_input_ids text_attention_masks text_labels pixel_values
    = Ok (hp', objs, (visual_input_ids, r, batch_labels,
                      batch_attention_mask))
    /\ Composer.deref_batch hp' r = batch_input_embeds
    /\ (length hp <= r)%nat
    /\ (forall r0, (r0 < length hp)%nat -> nth_error hp' r0 = nth_error hp r0)
    /\ length objs = length batch_input_embeds
    /\ forall k ids o row,
         nth_error text_input_ids k = Some ids ->
         nth_error objs k = Some o ->
         nth_error batch_input_embeds k = Some row ->
         count_token IMAGE_TOKEN_INDEX ids = O ->
         same_values (Composer.deref hp' (Composer.obj_text_embed o))
           (Composer.text_embed_of IMAGE_TOKEN_INDEX wte ids)
         /\ (exists n,
               same_values row
                 (Composer.truncate
                    (Composer.text_embed_of IMAGE_TOKEN_INDEX wte ids
                     ++ repeat (repeat 0%Q hidden_size) n)
                    multimodal_max_length))
         /\ r <> Composer.obj_text_embed o
         /\ (length hp <= Composer.obj_text_embed o)%nat.
Proof.
  intros Hrun. unfold Composer.merge_multimodal in Hrun.
  unfold Composer.merge_multimodal_obj.
  apply bind_ok in Hrun as ([[ves vids] vls] & Hv & Hrun). rewrite Hv.
  cbn [bind].
  apply bind_ok in Hrun as (labs & Hlabs & Hrun). rewrite Hlabs. cbn [bind].
  apply bind_ok in Hrun as (vals & Hvals & Hrun).
  set (zs := Composer.zip6 text_input_ids labs text_attention_masks ves vids
               vls) in *.
  destruct (merge_samples_obj_spec IMAGE_TOKEN_INDEX wte true zs hp vals
              Hvals)
    as (hp1 & objs & Hobjs & Hle & Hold & Hes & Hms & Hls & HF).
  rewrite Hobjs. cbn [bind fst snd]. rewrite Hes, Hms, Hls.
  apply bind_ok in Hrun as (be & Hbe & Hrun). rewrite Hbe. cbn [bind].
  apply bind_ok in Hrun as (bm & Hbm & Hrun).
  apply bind_ok in Hrun as (bl & Hbl & Hret).
  injection Hret as <- <- <- <-.
  unfold Composer.alloc. rewrite Hbm. cbn [bind]. rewrite Hbl. cbn [bind].
  exists (hp1 ++ [Composer.Batch be]), objs, (length hp1).
  split; [reflexivity|].
  split.
  { unfold Composer.deref_batch.
    now rewrite nth_error_app2, Nat.sub_diag by lia. }
  split; [exact Hle|].
  split.
  { intros r0 Hr0. rewrite nth_error_app1 by lia. now apply Hold. }
  assert (Hvne : vals <> []).
  { intros E. rewrite E in Hbe. discriminate Hbe. }
  rewrite pad_truncate_nonempty in Hbe
    by (intros E; apply map_eq_nil in E; exact (Hvne E)).
  injection Hbe as <-.
  assert (Hlen : length objs = length vals).
  { apply (f_equal (@length _)) in Hms. now rewrite !length_map in Hms. }
  split; [now rewrite !length_map|].
  intros k ids o row Hids Ho Hrow Hcount.
  rewrite !nth_error_map in Hrow.
  match type of Hrow with
  | context [@nth_error ?A ?l k] =>
      destruct (@nth_error A l k) as [v|] eqn:Hvk
  end; cbn [option_map] in Hrow; [|discriminate Hrow].
  injection Hrow as <-.
  assert (Hz : exists z, nth_error zs k = Some z).
  { destruct (nth_error zs k) as [z|] eqn:E; [now exists z|].
    apply nth_error_None in E. apply mapM_length in Hvals.
    assert (Hk : (k < length vals)%nat).
    { apply (nth_error_Some (A := list embedding * list bool * list Z)).
      rewrite Hvk. discriminate. }
    lia. }
  destruct Hz as (z & Hz).
  pose proof (nth_error_zip6 _ _ _ _ _ _ _ _ Hz) as Hzi.
  rewrite Hids in Hzi. injection Hzi as Hzi.
  destruct (mapM_nth _ _ _ _ _ Hvals Hz) as (v' & Hv' & Hmerge).
  pose proof (eq_trans (eq_sym Hv') Hvk) as Ev. injection Ev as ->.
  destruct z as [[[[[ids' lab] mask] ve] vid] vl]. cbn [fst] in Hzi.
  subst ids'.
  pose proof (merge_sample_zero_count _ _ _ _ _ _ _ _ Hcount Hmerge) as Hsame.
  assert (Hoz : (length hp <= Composer.obj_text_embed o < length hp1)%nat
                /\ Composer.obj_input_embed o = Composer.obj_text_embed o).
  { clear -HF Ho Hz Hcount. revert k Ho Hz.
    induction HF as [|o' z' objs' zs' [H1 H2] _ IH]; intros [|k] Ho Hz;
      simpl in *; try discriminate.
    - injection Ho as ->. injection Hz as ->. cbn [fst] in H2.
      split; [exact H1|now apply H2].
    - now apply (IH k). }
  destruct Hoz as [Hfresh Halias].
  split.
  { unfold Composer.deref. rewrite nth_error_app1 by lia.
    apply (f_equal (fun l => nth_error l k)) in Hes.
    rewrite !nth_error_map, Ho in Hes. cbn [option_map] in Hes.
    match type of Hes with
    | context [@nth_error ?A ?l k] =>
        replace (@nth_error A l k) with (Some v) in Hes
    end.
    cbn [option_map] in Hes.
    injection Hes as Hes. rewrite Halias in Hes. unfold Composer.deref in Hes.
    rewrite Hes. exact Hsame. }
  split.
  { eexists. apply same_values_truncate. apply same_values_app.
    - exact Hsame.
    - apply same_values_refl. }
  split; lia.
Qed.

Lemma zero_sentinel_training_new_tensor_witness :
  let hp := [Composer.Seq [[7%Q]]] in
  let text_input_ids := [[5; 6]; [-200; 6]] in
  let text_attention_masks := [[true; true]; [true; true]] in
  let text_labels := Some [[5; 6]; [-100; 6]] in
  let pixel_values := map Some [[0]; [20]] in
  exists visual_input_ids batch_input_embeds batch_labels
         batch_attention_mask,
    Composer.merge_multimodal (Tile := Z) (SoftToken := Z) (-100) (-200)
      (fun t => [inject_Z t]) (map (fun tile : Z => [tile; tile]))
      (fun s => [inject_Z s]) (fun s => s) 1 10 true
      text_input_ids text_attention_masks text_labels pixel_values
    = Ok (visual_input_ids, batch_input_embeds, batch_labels,
          batch_attention_mask)
    /\ exists hp' objs r,
      Composer.merge_multimodal_obj (Tile := Z) (SoftToken := Z) (-100)
        (-200) (fun t => [inject_Z t]) (map (fun tile : Z => [tile; tile]))
        (fun s => [inject_Z s]) (fun s => s) 1 10 hp true
        text_input_ids text_attention_masks text_labels pixel_values
      = Ok (hp', objs, (visual_input_ids, r, batch_labels,
                        batch_attention_mask))
      /\ Composer.deref_batch hp' r = batch_input_embeds
      /\ (length hp <= r)%nat
      /\ (forall r0, (r0 < length hp)%nat ->
            nth_error hp' r0 = nth_error hp r0)
      /\ length objs = length batch_input_embeds
      /\ forall k ids o row,
           nth_error text_input_ids k = Some ids ->
           nth_error objs k = Some o ->
           nth_error batch_input_embeds k = Some row ->
           count_token (-200) ids = O ->
           same_values (Composer.deref hp' (Composer.obj_text_embed o))
             (Composer.text_embed_of (-200) (fun t => [inject_Z t]) ids)
           /\ (exists n,
                 same_values row
                   (Composer.truncate
                      (Composer.text_embed_of (-200)
                         (fun t => [inject_Z t]) ids
                       ++ repeat (repeat 0%Q 1) n) 10))
           /\ r <> Composer.obj_text_embed o
           /\ (length hp <= Composer.obj_text_embed o)%nat.
Proof.
  intros hp text_input_ids text_attention_masks text_labels pixel_values.
  eexists _, _, _, _. split; [vm_compute; reflexivity|].
  apply (zero_sentinel_training_new_tensor (Tile := Z) (SoftToken := Z)
           (-100) (-200) (fun t => [inject_Z t])
           (map (fun tile : Z => [tile; tile])) (fun s => [inject_Z s])
           (fun s => s) 1 10 hp text_input_ids text_attention_masks
           text_labels pixel_values).
  vm_compute. reflexivity.
Defined.

